(** * Grid recalculation engine: segmentation, selective diffing and worker slots

    Shallow embedding of [src/model/Model.py], [src/model/components/*.py],
    [src/model/calculation/ModelProcessor.py],
    [src/model/calculation/CalculatorThreadManager.py] and the three PyPSA
    calculators under [src/model/calculation/pypsa], followed by the
    properties of the recalculation engine. *)

From Stdlib Require Import List ZArith Bool String Lia Relations Arith.
Import ListNotations.

Open Scope string_scope.
Open Scope list_scope.
Open Scope Z_scope.

Set Implicit Arguments.

(* ================================================================== *)
(** * Grid entities ([src/model/components]) *)
(* ================================================================== *)

(** [Component.py]: the fields every grid element inherits. *)
Record Component := mkComponent {
  name    : string;
  bus0    : string;
  active  : bool;
  changed : bool
}.

(** [Bus.py]. *)
Record Bus := mkBus {
  bus_base : Component;
  v_nom    : Z
}.

(** [Line.py]. *)
Record Line := mkLine {
  line_base : Component;
  line_bus1 : string;
  line_x    : Z;
  line_r    : Z;
  s_nom     : Z
}.

(** [Transformer.py]. *)
Record Transformer := mkTransformer {
  transformer_base : Component;
  transformer_bus1 : string
}.

(** [Generator.py]. *)
Record Generator := mkGenerator {
  generator_base : Component;
  generator_p_nom : Z;
  generator_p_set : Z
}.

(** [Load.py]. *)
Record Load := mkLoad {
  load_base  : Component;
  load_p_set : Z
}.

(** [StorageUnit.py]. *)
Record StorageUnit := mkStorageUnit {
  storage_base  : Component;
  storage_p_nom : Z
}.

(** Every entity class derives from [Component]; the class below plays the
    part of that inheritance relation. *)
Class Entity (A : Type) := {
  base     : A -> Component;
  with_base : Component -> A -> A
}.

#[global] Instance Entity_Bus : Entity Bus :=
  {| base := bus_base;
     with_base c b := {| bus_base := c; v_nom := v_nom b |} |}.
#[global] Instance Entity_Line : Entity Line :=
  {| base := line_base;
     with_base c l := {| line_base := c; line_bus1 := line_bus1 l;
                         line_x := line_x l; line_r := line_r l; s_nom := s_nom l |} |}.
#[global] Instance Entity_Transformer : Entity Transformer :=
  {| base := transformer_base;
     with_base c t := {| transformer_base := c; transformer_bus1 := transformer_bus1 t |} |}.
#[global] Instance Entity_Generator : Entity Generator :=
  {| base := generator_base;
     with_base c g := {| generator_base := c; generator_p_nom := generator_p_nom g;
                         generator_p_set := generator_p_set g |} |}.
#[global] Instance Entity_Load : Entity Load :=
  {| base := load_base;
     with_base c l := {| load_base := c; load_p_set := load_p_set l |} |}.
#[global] Instance Entity_StorageUnit : Entity StorageUnit :=
  {| base := storage_base;
     with_base c s := {| storage_base := c; storage_p_nom := storage_p_nom s |} |}.

Section EntityOps.
Context {A : Type} `{Entity A}.

Definition ename (x : A) : string := name (base x).
Definition ebus0 (x : A) : string := bus0 (base x).
Definition eactive (x : A) : bool := active (base x).
Definition echanged (x : A) : bool := changed (base x).

(** [x.changed = v]. *)
Definition set_changed (v : bool) (x : A) : A :=
  with_base {| name := name (base x); bus0 := bus0 (base x);
               active := active (base x); changed := v |} x.

(** [__key]: the pair [(self.name, self.changed)]. *)
Definition key (x : A) : string * bool := (ename x, echanged x).

(** [__eq__]: [self.__key() == other.__key()]. *)
Definition entity_eqb (x y : A) : bool :=
  String.eqb (ename x) (ename y) && Bool.eqb (echanged x) (echanged y).

(** Python's [==] on two lists: same length and pairwise [__eq__]. *)
Fixpoint list_eqb (l1 l2 : list A) : bool :=
  match l1, l2 with
  | [], [] => true
  | x :: t1, y :: t2 => entity_eqb x y && list_eqb t1 t2
  | _, _ => false
  end.
End EntityOps.

(* ================================================================== *)
(** * The model aggregate ([src/model/Model.py]) *)
(* ================================================================== *)

Record Model := mkModel {
  buses         : list Bus;
  lines         : list Line;
  transformers  : list Transformer;
  generators    : list Generator;
  loads         : list Load;
  storage_units : list StorageUnit
}.

(** [Model()]. *)
Definition empty_model : Model :=
  {| buses := []; lines := []; transformers := [];
     generators := []; loads := []; storage_units := [] |}.

Definition add_bus (b : Bus) (m : Model) : Model :=
  {| buses := buses m ++ [b]; lines := lines m; transformers := transformers m;
     generators := generators m; loads := loads m; storage_units := storage_units m |}.

Definition add_line (l : Line) (m : Model) : Model :=
  {| buses := buses m; lines := lines m ++ [l]; transformers := transformers m;
     generators := generators m; loads := loads m; storage_units := storage_units m |}.

Definition add_transformer (t : Transformer) (m : Model) : Model :=
  {| buses := buses m; lines := lines m; transformers := transformers m ++ [t];
     generators := generators m; loads := loads m; storage_units := storage_units m |}.

Definition add_generator (g : Generator) (m : Model) : Model :=
  {| buses := buses m; lines := lines m; transformers := transformers m;
     generators := generators m ++ [g]; loads := loads m; storage_units := storage_units m |}.

Definition add_load (l : Load) (m : Model) : Model :=
  {| buses := buses m; lines := lines m; transformers := transformers m;
     generators := generators m; loads := loads m ++ [l]; storage_units := storage_units m |}.

Definition add_storage_unit (u : StorageUnit) (m : Model) : Model :=
  {| buses := buses m; lines := lines m; transformers := transformers m;
     generators := generators m; loads := loads m; storage_units := storage_units m ++ [u] |}.

(** [Model.reset_changed_components]. *)
Definition reset_changed_components (m : Model) : Model :=
  {| buses := map (set_changed false) (buses m);
     lines := map (set_changed false) (lines m);
     transformers := map (set_changed false) (transformers m);
     generators := map (set_changed false) (generators m);
     loads := map (set_changed false) (loads m);
     storage_units := map (set_changed false) (storage_units m) |}.

(** [Model.compare_model_structure]: the length test, then Python list
    comparison of the bus lists and of the line lists. *)
Definition compare_model_structure (self other : Model) : bool :=
  if negb (Nat.eqb (List.length (buses self)) (List.length (buses other)))
     || negb (Nat.eqb (List.length (lines self)) (List.length (lines other)))
  then false
  else if negb (list_eqb (buses self) (buses other))
          || negb (list_eqb (lines self) (lines other))
  then false
  else true.

(** [Model.compare_model_components]. *)
Definition compare_model_components (self other : Model) : bool :=
  if negb (Nat.eqb (List.length (generators self)) (List.length (generators other)))
     || negb (Nat.eqb (List.length (loads self)) (List.length (loads other)))
     || negb (Nat.eqb (List.length (storage_units self)) (List.length (storage_units other)))
     || negb (Nat.eqb (List.length (transformers self)) (List.length (transformers other)))
  then false
  else if negb (list_eqb (generators self) (generators other))
          || negb (list_eqb (loads self) (loads other))
          || negb (list_eqb (storage_units self) (storage_units other))
          || negb (list_eqb (transformers self) (transformers other))
  then false
  else true.

(* ================================================================== *)
(** * Segmentation ([segment_model]) *)
(* ================================================================== *)

(** The [BusIndex] dataclass. *)
Record BusIndex := mkBusIndex {
  index    : nat;
  segment  : Z;
  bus_name : string
}.

(** [bus.segment = s]. *)
Definition set_segment (s : Z) (b : BusIndex) : BusIndex :=
  {| index := index b; segment := s; bus_name := bus_name b |}.

(** An element of [connection_list]: a line or a transformer. *)
Inductive Connection :=
| ConnLine (l : Line)
| ConnTransformer (t : Transformer).

Definition conn_bus0 (c : Connection) : string :=
  match c with ConnLine l => ebus0 l | ConnTransformer t => ebus0 t end.

Definition conn_bus1 (c : Connection) : string :=
  match c with ConnLine l => line_bus1 l | ConnTransformer t => transformer_bus1 t end.

(** The active lines, then the active transformers. *)
Definition connection_list (m : Model) : list Connection :=
  map ConnLine (filter eactive (lines m))
  ++ map ConnTransformer (filter eactive (transformers m)).

(** One [BusIndex] per bus, all with [segment = -1]. *)
Fixpoint init_from (i : nat) (bl : list Bus) : list BusIndex :=
  match bl with
  | [] => []
  | b :: tl => {| index := i; segment := -1; bus_name := ename b |} :: init_from (S i) tl
  end.

Definition init_bus_index_list (bl : list Bus) : list BusIndex := init_from 0 bl.

(** "Search for the first bus which has no segment ID assigned". *)
Fixpoint claim_first (cur : Z) (l : list BusIndex) : list BusIndex :=
  match l with
  | [] => []
  | b :: tl => if segment b =? -1 then set_segment cur b :: tl
               else b :: claim_first cur tl
  end.

(** "Check if all buses have an allocated segment id". *)
Definition all_allocated (l : list BusIndex) : bool :=
  forallb (fun b => negb (segment b =? -1)) l.

(** The innermost [for other_bus in bus_index_list] loop: the first unassigned
    entry called [target] gets the current id and the loop breaks; the flag
    tells whether an entry was assigned. *)
Fixpoint mark_other (target : string) (cur : Z) (l : list BusIndex)
  : list BusIndex * bool :=
  match l with
  | [] => ([], false)
  | b :: tl =>
      if String.eqb (bus_name b) target && (segment b =? -1)
      then (set_segment cur b :: tl, true)
      else let (tl', a) := mark_other target cur tl in (b :: tl', a)
  end.

(** The body of [for connection in connection_list], for the bus called [nm]. *)
Definition visit_connection (cur : Z) (nm : string)
    (st : list BusIndex * bool) (c : Connection) : list BusIndex * bool :=
  let st1 :=
    if String.eqb (conn_bus0 c) nm
    then let (l', a) := mark_other (conn_bus1 c) cur (fst st) in (l', snd st || a)
    else st in
  if String.eqb (conn_bus1 c) nm
  then let (l', a) := mark_other (conn_bus0 c) cur (fst st1) in (l', snd st1 || a)
  else st1.

(** The body of [for bus_index in bus_index_list]: the entry at position [p]
    is read from the list as the earlier iterations left it. *)
Definition sweep_step (conns : list Connection) (cur : Z)
    (st : list BusIndex * bool) (p : nat) : list BusIndex * bool :=
  match nth_error (fst st) p with
  | Some b =>
      if segment b =? cur
      then fold_left (visit_connection cur (bus_name b)) conns st
      else st
  | None => st
  end.

(** One turn of [while bus_segment_allocated]. *)
Definition sweep (conns : list Connection) (cur : Z) (l : list BusIndex)
  : list BusIndex * bool :=
  fold_left (sweep_step conns cur) (seq 0 (List.length l)) (l, false).

(** [while bus_segment_allocated]; [None] when the fuel runs out. *)
Fixpoint flood_fill (fuel : nat) (conns : list Connection) (cur : Z)
    (l : list BusIndex) : option (list BusIndex) :=
  match fuel with
  | O => None
  | S f =>
      let (l', a) := sweep conns cur l in
      if a then flood_fill f conns cur l' else Some l'
  end.

(** [while not finished]; returns the bus index list and [current_grid_id]. *)
Fixpoint segment_buses (fuel : nat) (conns : list Connection) (cur : Z)
    (l : list BusIndex) : option (list BusIndex * Z) :=
  match fuel with
  | O => None
  | S f =>
      let cur' := cur + 1 in
      let l1 := claim_first cur' l in
      let finished := all_allocated l1 in
      match flood_fill (S (List.length l1)) conns cur' l1 with
      | None => None
      | Some l2 => if finished then Some (l2, cur') else segment_buses f conns cur' l2
      end
  end.

(** The entities of a list attached to the bus called [nm]. *)
Definition attached {A : Type} `{Entity A} (nm : string) (l : list A) : list A :=
  filter (fun x => String.eqb (ebus0 x) nm) l.

(** The same with the [and x.active] test of lines and transformers. *)
Definition attached_active {A : Type} `{Entity A} (nm : string) (l : list A) : list A :=
  filter (fun x => String.eqb (ebus0 x) nm && eactive x) l.

(** [model_list[i].add_bus(bus_list[bus_index.index])]; [index] is a
    position of [bus_list] by construction, see [init_from_entry]. *)
Definition add_indexed_bus (input : Model) (bi : BusIndex) (m : Model) : Model :=
  match nth_error (buses input) (index bi) with
  | Some b => add_bus b m
  | None => m
  end.

(** Everything the compile loop adds to [model_list[i]] for one bus. *)
Definition add_for_bus (input : Model) (bi : BusIndex) (m : Model) : Model :=
  let m1 := add_indexed_bus input bi m in
  let m2 := fold_left (fun acc l => add_line l acc)
              (attached_active (bus_name bi) (lines input)) m1 in
  let m3 := fold_left (fun acc t => add_transformer t acc)
              (attached_active (bus_name bi) (transformers input)) m2 in
  let m4 := fold_left (fun acc g => add_generator g acc)
              (attached (bus_name bi) (generators input)) m3 in
  let m5 := fold_left (fun acc l => add_load l acc)
              (attached (bus_name bi) (loads input)) m4 in
  fold_left (fun acc u => add_storage_unit u acc)
    (attached (bus_name bi) (storage_units input)) m5.

(** [model_list[i] = f(model_list[i])]. *)
Fixpoint update_nth {A : Type} (i : nat) (f : A -> A) (l : list A) : list A :=
  match l, i with
  | [], _ => []
  | x :: tl, O => f x :: tl
  | x :: tl, S j => x :: update_nth j f tl
  end.

(** The body of [for i in range(models_found)]. *)
Definition place (input : Model) (bi : BusIndex) (ml : list Model) (i : nat)
  : list Model :=
  if segment bi =? Z.of_nat i then update_nth i (add_for_bus input bi) ml else ml.

(** The body of [for bus_index in bus_index_list] of the compile loop. *)
Definition place_bus (input : Model) (models_found : nat)
    (ml : list Model) (bi : BusIndex) : list Model :=
  fold_left (place input bi) (seq 0 models_found) ml.

Definition compile_models (input : Model) (models_found : nat)
    (bil : list BusIndex) : list Model :=
  fold_left (place_bus input models_found) bil (repeat empty_model models_found).

(** [segment_model]; the fuel covers one turn per bus and the closing turn. *)
Definition segment_model (input : Model) : option (list Model) :=
  let bil := init_bus_index_list (buses input) in
  match segment_buses (S (List.length bil)) (connection_list input) (-1) bil with
  | None => None
  | Some (bil', current_grid_id) =>
      Some (compile_models input (Z.to_nat current_grid_id) bil')
  end.

(* ================================================================== *)
(** * The scenario of [test/model_segmentation_test.py] *)
(* ================================================================== *)

Definition comp (n b : string) (a ch : bool) : Component :=
  {| name := n; bus0 := b; active := a; changed := ch |}.

Definition bus (n : string) : Bus := {| bus_base := comp n "" true false; v_nom := 110 |}.

Definition line (n b0 b1 : string) (a : bool) : Line :=
  {| line_base := comp n b0 a false; line_bus1 := b1;
     line_x := 2; line_r := 1; s_nom := 5000 |}.

Definition generator (n b : string) (a ch : bool) : Generator :=
  {| generator_base := comp n b a ch; generator_p_nom := 0; generator_p_set := 0 |}.

Definition load (n b : string) : Load :=
  {| load_base := comp n b true false; load_p_set := 0 |}.

Definition storage (n b : string) : StorageUnit :=
  {| storage_base := comp n b true false; storage_p_nom := 0 |}.

Definition test_model (line_4_active : bool) : Model :=
  {| buses := [bus "bus_0"; bus "bus_1"; bus "bus_2"; bus "bus_3";
               bus "bus_4"; bus "bus_5"; bus "bus_6"; bus "bus_7"];
     lines := [line "line_0" "bus_0" "bus_1" true; line "line_1" "bus_1" "bus_2" true;
               line "line_2" "bus_2" "bus_3" true; line "line_3" "bus_3" "bus_0" true;
               line "line_4" "bus_3" "bus_4" line_4_active;
               line "line_5" "bus_4" "bus_5" true; line "line_6" "bus_5" "bus_6" true;
               line "line_7" "bus_6" "bus_7" true; line "line_8" "bus_7" "bus_4" true];
     transformers := [];
     generators := [generator "gen_0" "bus_0" true false];
     loads := [load "load_0" "bus_6"];
     storage_units := [storage "storage_0" "bus_2"] |}.

Definition two_bus_model (first second : string) : Model :=
  {| buses := [bus first; bus second]; lines := []; transformers := [];
     generators := []; loads := []; storage_units := [] |}.

(* ================================================================== *)
(** * The orchestrator ([ModelProcessor], [SmartGridTable]) *)
(* ================================================================== *)

Record ModelProcessor := mkModelProcessor {
  input_model                  : option Model;
  segmented_model_list         : list Model;
  previous_segmented_model_list : option (list Model)
}.

(** [ModelProcessor.__init__]: the previous list starts as [[]]. *)
Definition new_model_processor : ModelProcessor :=
  {| input_model := None; segmented_model_list := [];
     previous_segmented_model_list := Some [] |}.

Definition set_input_model (m : Model) (p : ModelProcessor) : ModelProcessor :=
  {| input_model := Some m; segmented_model_list := segmented_model_list p;
     previous_segmented_model_list := previous_segmented_model_list p |}.

(** The inner [for existing_model in previous] loop computing [add]. *)
Definition needs_calculation (previous : list Model) (model : Model) : bool :=
  fold_left
    (fun add existing_model =>
       if compare_model_components model existing_model
          && compare_model_structure model existing_model
       then false else add)
    previous true.

(** [ModelProcessor.selective_calculate]: the new processor state and the
    list handed to [CalculatorThreadManager.calculate].  [deepcopy] of a list
    of values is the list itself; the copy is taken before the caller clears
    the flags of the live entities. *)
Definition selective_calculate (p : ModelProcessor)
  : option (ModelProcessor * list Model) :=
  match input_model p with
  | None => None
  | Some input =>
      match segment_model input with
      | None => None
      | Some segs =>
          let model_list :=
            match previous_segmented_model_list p with
            | Some previous => filter (needs_calculation previous) segs
            | None => []
            end in
          let previous' : option (list Model) := Some segs in
          let model_list' :=
            match previous' with None => segs | Some _ => model_list end in
          Some ({| input_model := input_model p; segmented_model_list := segs;
                   previous_segmented_model_list := previous' |}, model_list')
      end
  end.

(** [ModelProcessor.force_calculate]. *)
Definition force_calculate (p : ModelProcessor)
  : option (ModelProcessor * list Model) :=
  match input_model p with
  | None => None
  | Some input =>
      match segment_model input with
      | None => None
      | Some segs =>
          Some ({| input_model := input_model p; segmented_model_list := segs;
                   previous_segmented_model_list := Some segs |}, segs)
      end
  end.

(** The model part of [SmartGridTable.selective_calculate]: hand the live
    model to the processor, run it, then [model.reset_changed_components()].
    The segments share the live entities, so their flags are cleared too; the
    deep copy kept as previous list is not touched.  Returns the processor,
    the dispatched segments and the live model after the round. *)
Definition table_selective_calculate (p : ModelProcessor) (model : Model)
  : option (ModelProcessor * list Model * Model) :=
  match selective_calculate (set_input_model model p) with
  | None => None
  | Some (p', dispatched) =>
      let model' := reset_changed_components model in
      Some ({| input_model := Some model';
               segmented_model_list :=
                 map reset_changed_components (segmented_model_list p');
               previous_segmented_model_list := previous_segmented_model_list p' |},
            dispatched, model')
  end.

(* ================================================================== *)
(** * Worker slots ([CalculatorThreadManager], PyPSA calculators) *)
(* ================================================================== *)

(** The calculation methods [__create_calculation_instance] knows.  The
    calculators of the first three are under [pypsa/]; the class behind
    "optimize", the method a new manager starts with, is not part of the
    sources. *)
Inductive Method := Lopf | Lpf | Pf | Optimize.

(** What a call into external code does: return a value or raise. *)
Inductive outcome (A : Type) := Returns (a : A) | Raises.
Arguments Raises {A}.

(** The external behaviour met by one slot during one round. *)
Record Externals := mkExternals {
  ext_lopf       : outcome (string * string);  (* [network.lopf()] *)
  ext_lpf        : outcome unit;               (* [network.lpf()] *)
  ext_pf         : outcome unit;               (* [network.pf(use_seed=True)] *)
  ext_export     : outcome unit;               (* [export_to_csv_folder] *)
  ext_build_time : Z;                          (* clock difference of [build_model] *)
  ext_calc_time  : Z;                          (* clock difference of [calculate] *)
  ext_build      : outcome unit;               (* [set_snapshots], [madd], [mremove] *)
  ext_retrieve   : outcome unit;               (* the reads of [_retrieve_results] *)
  ext_optimize   : outcome (string * string)   (* [calculate] of the optimize class *)
}.

Inductive Event :=
| EvBuild | EvResetLines | EvSolver | EvRetrieveResults | EvFinished | EvExport
| EvOptimize.

(** The fields of [PyPSANetworkBuilder] the slot reads and writes. *)
Record Calculator := mkCalculator {
  calc_method        : Method;
  calc_input_model   : option Model;
  calc_snapshots     : list Z;
  calc_status        : string;
  calc_condition     : string;
  calc_time          : Z;
  network_build_time : Z
}.

(** [ThreadData]. *)
Record ThreadData := mkThreadData {
  td_model           : option Model;
  td_snapshots       : list Z;
  model_id           : Z;
  wakeup_event       : bool;
  finished_event     : bool;
  calculation_time   : Z;
  build_time         : Z;
  status             : string;
  status_extended    : string
}.

(** A slot: the thread data, its calculation instance, whether the worker
    thread is still running, and the calls it made so far. *)
Record Slot := mkSlot {
  thread   : ThreadData;
  instance : Calculator;
  alive    : bool;
  events   : list Event
}.

(** State and exception monad of the worker thread. *)
Inductive Result (A : Type) := Ok (a : A) | Exn.
Arguments Exn {A}.

Definition W (A : Type) : Type := Slot -> Result A * Slot.

Definition ret {A : Type} (a : A) : W A := fun s => (Ok a, s).

Definition bind {A B : Type} (m : W A) (k : A -> W B) : W B :=
  fun s => match m s with
           | (Ok a, s') => k a s'
           | (Exn, s') => (Exn, s')
           end.

(** [try: m except: h]. *)
Definition try_except {A : Type} (m : W A) (h : W A) : W A :=
  fun s => match m s with
           | (Ok a, s') => (Ok a, s')
           | (Exn, s') => h s'
           end.

Notation "x <- m ;; k" := (bind m (fun x => k))
  (at level 61, m at next level, right associativity).
Notation "m ;;; k" := (bind m (fun _ => k))
  (at level 61, right associativity).

Definition log (e : Event) : W unit :=
  fun s => (Ok tt, {| thread := thread s; instance := instance s;
                      alive := alive s; events := events s ++ [e] |}).

Definition get_instance : W Calculator := fun s => (Ok (instance s), s).

Definition put_instance (c : Calculator) : W unit :=
  fun s => (Ok tt, {| thread := thread s; instance := c;
                      alive := alive s; events := events s |}).

Definition get_thread : W ThreadData := fun s => (Ok (thread s), s).

Definition put_thread (t : ThreadData) : W unit :=
  fun s => (Ok tt, {| thread := t; instance := instance s;
                      alive := alive s; events := events s |}).

(** A call into external code: logged, then its outcome. *)
Definition external {A : Type} (e : Event) (o : outcome A) : W A :=
  log e ;;;
  (fun s => match o with Returns a => (Ok a, s) | Raises => (Exn, s) end).

Definition set_status (st cond : string) : W unit :=
  c <- get_instance ;;
  put_instance {| calc_method := calc_method c; calc_input_model := calc_input_model c;
                  calc_snapshots := calc_snapshots c; calc_status := st;
                  calc_condition := cond; calc_time := calc_time c;
                  network_build_time := network_build_time c |}.

Definition set_calc_time (t : Z) : W unit :=
  c <- get_instance ;;
  put_instance {| calc_method := calc_method c; calc_input_model := calc_input_model c;
                  calc_snapshots := calc_snapshots c; calc_status := calc_status c;
                  calc_condition := calc_condition c; calc_time := t;
                  network_build_time := network_build_time c |}.

(** [self._input_model]; reading a field of [None] raises. *)
Definition the_input_model : W Model :=
  c <- get_instance ;;
  match calc_input_model c with
  | Some m => ret m
  | None => fun s => (Exn, s)
  end.

Definition no_generators (m : Model) : bool :=
  Nat.eqb (List.length (generators m)) 0.

Definition no_storage_units (m : Model) : bool :=
  Nat.eqb (List.length (storage_units m)) 0.

(** [PyPSACalculatorLOPF.calculate]. *)
Definition calculate_lopf (ext : Externals) : W bool :=
  log EvResetLines ;;;
  m <- the_input_model ;;
  if no_generators m && no_storage_units m
  then set_calc_time (ext_calc_time ext) ;;;
       set_status "failed" "no generation" ;;;
       ret false
  else
    st <- external EvSolver (ext_lopf ext) ;;
    set_status (fst st) (snd st) ;;;
    succes <- (if String.eqb (fst st) "ok" && String.eqb (snd st) "optimal"
               then external EvRetrieveResults (ext_retrieve ext) ;;; ret true
               else ret false) ;;
    set_calc_time (ext_calc_time ext) ;;;
    ret succes.

(** [PyPSACalculatorLPF.calculate]. *)
Definition calculate_lpf (ext : Externals) : W bool :=
  set_status "ok" "succes" ;;;
  log EvResetLines ;;;
  m <- the_input_model ;;
  if no_generators m
  then set_calc_time (ext_calc_time ext) ;;;
       set_status "failed" "no generation" ;;;
       ret false
  else
    succes <- try_except
                (external EvSolver (ext_lpf ext) ;;; ret true)
                (set_status "warning" "failed" ;;; ret false) ;;
    (if succes then external EvRetrieveResults (ext_retrieve ext) else ret tt) ;;;
    set_calc_time (ext_calc_time ext) ;;;
    ret succes.

(** [PyPSACalculatorPF.calculate]. *)
Definition calculate_pf (ext : Externals) : W bool :=
  set_status "ok" "succes" ;;;
  log EvResetLines ;;;
  m <- the_input_model ;;
  if no_generators m && no_storage_units m
  then set_calc_time (ext_calc_time ext) ;;;
       set_status "failed" "no generation" ;;;
       ret false
  else
    succes <- try_except
                (external EvSolver (ext_lpf ext) ;;;
                 external EvSolver (ext_pf ext) ;;;
                 ret true)
                (set_status "warning" "failed" ;;; ret false) ;;
    set_calc_time (ext_calc_time ext) ;;;
    (if succes then external EvRetrieveResults (ext_retrieve ext) else ret tt) ;;;
    ret succes.

(** [PyPSACalculatorOptimize.calculate].  The class is imported by
    [CalculatorThreadManager] but is not part of the sources, so its
    [calculate] is taken as a parameter: a call into unknown code that
    raises, or returns and leaves a status and a condition to be read by
    [get_status] and [get_condition].  Like its three siblings the class is
    taken to extend [PyPSANetworkBuilder]. *)
Definition calculate_optimize (ext : Externals) : W bool :=
  st <- external EvOptimize (ext_optimize ext) ;;
  set_status (fst st) (snd st) ;;;
  set_calc_time (ext_calc_time ext) ;;;
  ret true.

(** Dynamic dispatch of [calculation_instance.calculate()]. *)
Definition calculate (ext : Externals) : W bool :=
  c <- get_instance ;;
  match calc_method c with
  | Lopf => calculate_lopf ext
  | Lpf => calculate_lpf ext
  | Pf => calculate_pf ext
  | Optimize => calculate_optimize ext
  end.

(** [set_snapshots] and [set_input_model] of the calculation instance. *)
Definition load_instance : W unit :=
  t <- get_thread ;;
  c <- get_instance ;;
  put_instance {| calc_method := calc_method c; calc_input_model := td_model t;
                  calc_snapshots := td_snapshots t; calc_status := calc_status c;
                  calc_condition := calc_condition c; calc_time := calc_time c;
                  network_build_time := network_build_time c |}.

(** [build_model], as far as the slot observes it: the calls into pypsa
    ([set_snapshots], then [madd] and [mremove] through [force_build] or
    [selective_build]) stand outside any [try] and may raise; the components
    of the input model are read, which raises when there is none; the build
    time is stored last. *)
Definition build_model (ext : Externals) : W unit :=
  external EvBuild (ext_build ext) ;;;
  the_input_model ;;;
  c <- get_instance ;;
  put_instance {| calc_method := calc_method c; calc_input_model := calc_input_model c;
                  calc_snapshots := calc_snapshots c; calc_status := calc_status c;
                  calc_condition := calc_condition c; calc_time := calc_time c;
                  network_build_time := ext_build_time ext |}.

(** "Retrieve benchmarks from the calculating instance". *)
Definition retrieve_benchmarks : W unit :=
  t <- get_thread ;;
  c <- get_instance ;;
  put_thread {| td_model := td_model t; td_snapshots := td_snapshots t;
                model_id := model_id t; wakeup_event := wakeup_event t;
                finished_event := finished_event t;
                calculation_time := calc_time c; build_time := network_build_time c;
                status := calc_status c; status_extended := calc_condition c |}.

Definition set_finished (v : bool) (t : ThreadData) : ThreadData :=
  {| td_model := td_model t; td_snapshots := td_snapshots t;
     model_id := model_id t; wakeup_event := wakeup_event t;
     finished_event := v;
     calculation_time := calculation_time t; build_time := build_time t;
     status := status t; status_extended := status_extended t |}.

Definition set_wakeup (v : bool) (t : ThreadData) : ThreadData :=
  {| td_model := td_model t; td_snapshots := td_snapshots t;
     model_id := model_id t; wakeup_event := v;
     finished_event := finished_event t;
     calculation_time := calculation_time t; build_time := build_time t;
     status := status t; status_extended := status_extended t |}.

Definition set_td_model (m : Model) (t : ThreadData) : ThreadData :=
  {| td_model := Some m; td_snapshots := td_snapshots t;
     model_id := model_id t; wakeup_event := wakeup_event t;
     finished_event := finished_event t;
     calculation_time := calculation_time t; build_time := build_time t;
     status := status t; status_extended := status_extended t |}.

(** [finished_event.set()]. *)
Definition signal_finished : W unit :=
  t <- get_thread ;;
  put_thread (set_finished true t) ;;;
  log EvFinished.

(** The body of the worker loop after the wake-up, shutdown flag unset, up
    to and including [finished_event.set()]. *)
Definition worker_round (ext : Externals) : W unit :=
  load_instance ;;;
  build_model ext ;;;
  calculate ext ;;;
  retrieve_benchmarks ;;;
  signal_finished.

(** The whole body: the round, then "Export the results to external files". *)
Definition worker_body (ext : Externals) : W unit :=
  worker_round ext ;;;
  external EvExport (ext_export ext).

(** One pass of [__calculate_thread] for a slot whose wake-up event is set:
    the event is cleared and the body runs; an exception leaving the body
    ends the thread.  A thread that has ended does nothing. *)
Definition run_slot (ext : Externals) (s : Slot) : Slot :=
  if alive s && wakeup_event (thread s)
  then
    let s0 := {| thread := set_wakeup false (thread s); instance := instance s;
                 alive := alive s; events := events s |} in
    match worker_body ext s0 with
    | (Ok _, s1) => s1
    | (Exn, s1) => {| thread := thread s1; instance := instance s1;
                      alive := false; events := events s1 |}
    end
  else s.

(** [__create_calculation_instance] and the [ThreadData] set up for slot [i]. *)
Definition new_slot (method : Method) (snapshots : list Z) (i : nat)
    (m : option Model) : Slot :=
  {| thread := {| td_model := m; td_snapshots := snapshots;
                  model_id := Z.of_nat i; wakeup_event := false;
                  finished_event := false; calculation_time := 0;
                  build_time := 0; status := "ok"; status_extended := "booting" |};
     instance := {| calc_method := method; calc_input_model := None;
                    calc_snapshots := []; calc_status := ""; calc_condition := "";
                    calc_time := 0; network_build_time := 0 |};
     alive := true; events := [] |}.

Record CalculatorThreadManager := mkManager {
  worker_threads     : list Slot;
  calculation_method : Method;
  snapshots          : list Z
}.

(** [CalculatorThreadManager.__init__], which sets up five slots for
    "optimize", followed by [set_calculation_method method]: the manager as
    it stands before its first round. *)
Definition new_manager (method : Method) : CalculatorThreadManager :=
  {| worker_threads := map (fun i => new_slot method [0] i None) (seq 0 5);
     calculation_method := method; snapshots := [0] |}.

(** "Spawn more worker threads if needed". *)
Definition spawn_workers (mgr : CalculatorThreadManager) (model_list : list Model)
  : list Slot :=
  let n := List.length (worker_threads mgr) in
  worker_threads mgr
  ++ map (fun i => new_slot (calculation_method mgr) (snapshots mgr) i
                     (nth_error model_list i))
         (seq n (List.length model_list - n)).

(** "Send the start signal": slot [i] gets model [i] and is woken up. *)
Fixpoint start_workers (model_list : list Model) (slots : list Slot) : list Slot :=
  match model_list, slots with
  | m :: ms, s :: ss =>
      {| thread := set_wakeup true (set_td_model m (thread s));
         instance := instance s; alive := alive s; events := events s |}
      :: start_workers ms ss
  | _, _ => slots
  end.

(** The woken slots run, slot [i] against the externals [exts i]. *)
Fixpoint run_workers (exts : nat -> Externals) (i : nat) (slots : list Slot)
  : list Slot :=
  match slots with
  | [] => []
  | s :: ss => run_slot (exts i) s :: run_workers exts (S i) ss
  end.

(** "Wait until all worker threads are finished": [None] when one of the
    first [n] slots never sets its event, so that the wait never returns. *)
Fixpoint wait_workers (n : nat) (slots : list Slot) : option (list Slot) :=
  match n, slots with
  | O, _ => Some slots
  | S k, s :: ss =>
      if finished_event (thread s)
      then option_map
             (cons {| thread := set_finished false (thread s); instance := instance s;
                      alive := alive s; events := events s |})
             (wait_workers k ss)
      else None
  | S _, [] => None
  end.

(** [CalculatorThreadManager.calculate]: [exts] gives the externals met by
    the slot of each model.  [None]: the call never returns. *)
Definition manager_calculate (exts : nat -> Externals) (model_list : list Model)
    (mgr : CalculatorThreadManager) : option CalculatorThreadManager :=
  let slots := spawn_workers mgr model_list in
  let started := start_workers model_list slots in
  let ran := run_workers exts 0 started in
  match wait_workers (List.length model_list) ran with
  | Some slots' =>
      Some {| worker_threads := slots'; calculation_method := calculation_method mgr;
              snapshots := snapshots mgr |}
  | None => None
  end.

(** What [calculate] prints per model: status, condition, build and solver
    time of the first [n] slots. *)
Definition slot_report (s : Slot) : string * string * Z * Z :=
  (status (thread s), status_extended (thread s),
   build_time (thread s), calculation_time (thread s)).

Definition round_report (n : nat) (r : option CalculatorThreadManager)
  : option (list (string * string * Z * Z)) :=
  option_map (fun mgr => map slot_report (firstn n (worker_threads mgr))) r.

(** The same externals with another outcome of the export. *)
Definition with_export (o : outcome unit) (e : Externals) : Externals :=
  {| ext_lopf := ext_lopf e; ext_lpf := ext_lpf e; ext_pf := ext_pf e;
     ext_export := o; ext_build_time := ext_build_time e;
     ext_calc_time := ext_calc_time e; ext_build := ext_build e;
     ext_retrieve := ext_retrieve e; ext_optimize := ext_optimize e |}.

(** A slot of the given method that was handed the segment [m] and woken up. *)
Definition started_slot (method : Method) (m : Model) : Slot :=
  match start_workers [m] [new_slot method [0] 0 None] with
  | s :: _ => s
  | [] => new_slot method [0] 0 None
  end.

(** The definitional failure, reported with no call of the solver. *)
Definition reports_no_generation (s : Slot) : Prop :=
  status (thread s) = "failed"
  /\ status_extended (thread s) = "no generation"
  /\ ~ In EvSolver (events s).

(** What the calculation instance of a slot holds as status, condition,
    build time and calculation time. *)
Definition instance_report (s : Slot) : string * string * Z * Z :=
  (calc_status (instance s), calc_condition (instance s),
   network_build_time (instance s), calc_time (instance s)).

(** An action only appends to the log, and never an export. *)
Definition appends {A : Type} (m : W A) : Prop :=
  forall s, exists new, events (snd (m s)) = events s ++ new /\ ~ In EvExport new.

(** When the action returns, the last thing logged is the completion
    signal, the event is set and the thread data are those of the instance. *)
Definition ends_finished {A : Type} (m : W A) : Prop :=
  forall s a s', m s = (Ok a, s') ->
    exists pre, events s' = events s ++ pre ++ [EvFinished]
                /\ ~ In EvExport pre
                /\ finished_event (thread s') = true
                /\ slot_report s' = instance_report s'.

(** In the log of one pass of a slot an export comes last, right after the
    completion signal, with the event set and the thread data final. *)
Definition export_after_finished (ext : Externals) (s : Slot) : Prop :=
  exists new,
    events (run_slot ext s) = events s ++ new
    /\ (In EvExport new ->
        exists pre, new = pre ++ [EvFinished; EvExport]
                    /\ ~ In EvExport pre
                    /\ finished_event (thread (run_slot ext s)) = true
                    /\ slot_report (run_slot ext s) = instance_report (run_slot ext s)).

(** Two entity lists holding the same set of keys. *)
Definition same_entity_set {A : Type} `{Entity A} (l1 l2 : list A) : Prop :=
  forall k, In k (map key l1) <-> In k (map key l2).

(* ================================================================== *)
(** * The grid as a graph, and what the loops maintain *)
(* ================================================================== *)

(** An active line or an active transformer of [m] joins the buses called
    [a] and [b], in either direction. *)
Definition edge (m : Model) (a b : string) : Prop :=
  In a (map ename (buses m)) /\ In b (map ename (buses m))
  /\ ((exists l, In l (lines m) /\ eactive l = true
                 /\ ((ebus0 l = a /\ line_bus1 l = b) \/ (ebus0 l = b /\ line_bus1 l = a)))
      \/ (exists t, In t (transformers m) /\ eactive t = true
                    /\ ((ebus0 t = a /\ transformer_bus1 t = b)
                        \/ (ebus0 t = b /\ transformer_bus1 t = a)))).


(** Two buses lie in the same returned segment. *)
Definition same_segment (segs : list Model) (b1 b2 : Bus) : Prop :=
  exists s, In s segs /\ In b1 (buses s) /\ In b2 (buses s).

(** Number of entries still waiting for a segment id. *)
Definition unassigned (l : list BusIndex) : nat :=
  List.length (filter (fun b => segment b =? -1) l).

(** The fields of an entry that the loops never write. *)
Definition shape (l : list BusIndex) : list (nat * string) :=
  map (fun b => (index b, bus_name b)) l.

(** The connection list joins the names [a] and [b]. *)
Definition linked (conns : list Connection) (a b : string) : Prop :=
  exists c, In c conns
            /\ ((conn_bus0 c = a /\ conn_bus1 c = b)
                \/ (conn_bus0 c = b /\ conn_bus1 c = a)).

Definition adjacent (conns : list Connection) (names : list string)
    (a b : string) : Prop :=
  In a names /\ In b names /\ linked conns a b.

Definition connected (conns : list Connection) (names : list string)
  : string -> string -> Prop :=
  clos_refl_trans string (adjacent conns names).

(** What holds of the bus index list while segment [k] is being filled:
    the untouched fields are those of [sh], ids lie in [-1 .. k], entries
    sharing an id are connected, and the segments below [k] are closed
    under the connections. *)
Record flood_inv (conns : list Connection) (sh : list (nat * string)) (k : Z)
    (l : list BusIndex) : Prop := mkFloodInv {
  inv_shape : shape l = sh;
  inv_range : forall x, In x l -> -1 <= segment x <= k;
  inv_sound : forall x y, In x l -> In y l ->
      segment x = segment y -> segment x <> -1 ->
      connected conns (map snd sh) (bus_name x) (bus_name y);
  inv_closed : forall x y, In x l -> In y l ->
      linked conns (bus_name x) (bus_name y) ->
      segment x <> -1 -> segment x < k -> segment y = segment x
}.

(** Segment [k] has not been opened yet. *)
Definition round_start (conns : list Connection) (sh : list (nat * string)) (k : Z)
    (l : list BusIndex) : Prop :=
  flood_inv conns sh k l /\ forall x, In x l -> segment x < k.

(** No connection leaves segment [k] towards an unassigned entry. *)
Definition closed_at (conns : list Connection) (k : Z) (l : list BusIndex) : Prop :=
  forall x y, In x l -> In y l -> segment x = k ->
    linked conns (bus_name x) (bus_name y) -> segment y <> -1.

(** Some entry called [nm] already carries the id [k]. *)
Definition has_source (k : Z) (nm : string) (l : list BusIndex) : Prop :=
  exists x, In x l /\ bus_name x = nm /\ segment x = k.

(** How a loop body may move the pair of list and flag: entries are only
    ever assigned, the flag is only ever raised and is raised whenever an
    entry was assigned. *)
Definition progress (st st' : list BusIndex * bool) : Prop :=
  (unassigned (fst st') <= unassigned (fst st))%nat
  /\ (snd st = true -> snd st' = true)
  /\ (snd st = false -> snd st' = true ->
      (unassigned (fst st') < unassigned (fst st))%nat)
  /\ (snd st' = false -> st' = st).

(** Segment [i] in closed form: the buses with id [i], in list order, each
    followed by what is attached to it. *)
Definition entries_of (i : nat) (bil : list BusIndex) : list BusIndex :=
  filter (fun bi => segment bi =? Z.of_nat i) bil.

Definition indexed_bus (input : Model) (bi : BusIndex) : list Bus :=
  match nth_error (buses input) (index bi) with
  | Some b => [b]
  | None => []
  end.

Definition segment_of (input : Model) (bil : list BusIndex) (i : nat) : Model :=
  let es := entries_of i bil in
  {| buses := flat_map (indexed_bus input) es;
     lines := flat_map (fun bi => attached_active (bus_name bi) (lines input)) es;
     transformers :=
       flat_map (fun bi => attached_active (bus_name bi) (transformers input)) es;
     generators := flat_map (fun bi => attached (bus_name bi) (generators input)) es;
     loads := flat_map (fun bi => attached (bus_name bi) (loads input)) es;
     storage_units :=
       flat_map (fun bi => attached (bus_name bi) (storage_units input)) es |}.

(** The model [m0] followed by the content of [d]. *)
Definition model_app (m0 d : Model) : Model :=
  {| buses := buses m0 ++ buses d; lines := lines m0 ++ lines d;
     transformers := transformers m0 ++ transformers d;
     generators := generators m0 ++ generators d;
     loads := loads m0 ++ loads d;
     storage_units := storage_units m0 ++ storage_units d |}.

(** Total number of buses over a list of segments. *)
Definition bus_count (segs : list Model) : nat :=
  fold_right (fun s n => (List.length (buses s) + n)%nat) 0%nat segs.

(** The entities of one kind whose [bus0] names no bus of [m] are in none
    of the segments. *)
Definition dangling_omitted {A : Type} `{Entity A} (m : Model) (segs : list Model)
    (kind : Model -> list A) : Prop :=
  forall x, (forall b, In b (buses m) -> ename b <> ebus0 x) ->
            forall s, In s segs -> ~ In x (kind s).

(** Every entity of one kind found in a segment sits there with the bus
    its [bus0] names. *)
Definition placed_by_bus0 {A : Type} `{Entity A} (m : Model) (segs : list Model)
    (kind : Model -> list A) : Prop :=
  forall s x, In s segs -> In x (kind s) ->
    exists b, In b (buses s) /\ In b (buses m) /\ ename b = ebus0 x.

(** An entity of one kind attached to a bus of a segment is in that
    segment, whatever its flags. *)
Definition follows_bus {A : Type} `{Entity A} (m : Model) (segs : list Model)
    (kind : Model -> list A) : Prop :=
  forall s b x, In s segs -> In b (buses s) -> In x (kind m) ->
                ebus0 x = ename b -> In x (kind s).

(** Every entity of one kind in every segment is active. *)
Definition all_active {A : Type} `{Entity A} (segs : list Model)
    (kind : Model -> list A) : Prop :=
  forall s x, In s segs -> In x (kind s) -> eactive x = true.

(** The result of [segment_model], the empty list standing for no result. *)
Definition segments_of (m : Model) : list Model :=
  match segment_model m with Some segs => segs | None => [] end.

(** * Concrete inputs *)

Definition one_bus_model : Model :=
  {| buses := [bus "bus_0"]; lines := []; transformers := [];
     generators := []; loads := []; storage_units := [] |}.

(** Two buses joined by an active line, a generator on the first. *)
Definition small_grid (gen_active gen_changed : bool) : Model :=
  {| buses := [bus "bus_0"; bus "bus_1"];
     lines := [line "line_0" "bus_0" "bus_1" true];
     transformers := [];
     generators := [generator "gen_0" "bus_0" gen_active gen_changed];
     loads := []; storage_units := [] |}.

(** A segment fed by a storage unit only. *)
Definition storage_only_segment : Model :=
  {| buses := [bus "bus_0"; bus "bus_1"];
     lines := [line "line_0" "bus_0" "bus_1" true];
     transformers := []; generators := [];
     loads := [load "load_0" "bus_1"];
     storage_units := [storage "storage_0" "bus_0"] |}.

(** Two buses joined by an active line, the second bus inactive. *)
Definition inactive_bus_grid : Model :=
  {| buses := [bus "bus_0";
               {| bus_base := comp "bus_1" "" false false; v_nom := 110 |}];
     lines := [line "line_0" "bus_0" "bus_1" true];
     transformers := []; generators := []; loads := []; storage_units := [] |}.

(** Two separate islands, each with a generator; the first generator may
    carry the changed flag. *)
Definition two_islands (gen_changed : bool) : Model :=
  {| buses := [bus "bus_0"; bus "bus_1"; bus "bus_2"; bus "bus_3"];
     lines := [line "line_0" "bus_0" "bus_1" true;
               line "line_1" "bus_2" "bus_3" true];
     transformers := [];
     generators := [generator "gen_0" "bus_0" true gen_changed;
                    generator "gen_1" "bus_2" true false];
     loads := []; storage_units := [] |}.

(** A solver that runs to the optimum, and one that raises. *)
Definition quiet_externals : Externals :=
  {| ext_lopf := Returns ("ok", "optimal"); ext_lpf := Returns tt;
     ext_pf := Returns tt; ext_export := Returns tt;
     ext_build_time := 1; ext_calc_time := 2;
     ext_build := Returns tt; ext_retrieve := Returns tt;
     ext_optimize := Returns ("ok", "optimal") |}.

Definition raising_externals : Externals :=
  {| ext_lopf := Raises; ext_lpf := Raises; ext_pf := Raises;
     ext_export := Returns tt; ext_build_time := 1; ext_calc_time := 2;
     ext_build := Returns tt; ext_retrieve := Returns tt;
     ext_optimize := Raises |}.

(* ================================================================== *)
(** * Further parts of the sources *)
(* ================================================================== *)

(** An entry that has an id keeps it, and stays in the list. *)
Definition assigned_kept (l l' : list BusIndex) : Prop :=
  forall x, In x l -> segment x <> -1 -> In x l'.

(** An active edge of one kind follows the bus its [bus0] names. *)
Definition active_follows_bus {A : Type} `{Entity A} (m : Model) (segs : list Model)
    (kind : Model -> list A) : Prop :=
  forall s b x, In s segs -> In b (buses s) -> In x (kind m) ->
                eactive x = true -> ebus0 x = ename b -> In x (kind s).

(** [set(l)]: one element per key, the first one met.  The order in which
    a Python set is walked is not fixed; the list order here is that of
    first occurrence, and only membership is ever used. *)
Fixpoint python_set {A : Type} `{Entity A} (l : list A) : list A :=
  match l with
  | [] => []
  | x :: tl =>
      x :: filter (fun y => negb (entity_eqb y x)) (python_set tl)
  end.

(** [set(l1) - set(l2)]. *)
Definition set_difference {A : Type} `{Entity A} (l1 l2 : list A) : list A :=
  filter (fun x => negb (existsb (entity_eqb x) (python_set l2))) (python_set l1).

(** [get_added_buses], [get_added_lines], [get_added_generators],
    [get_added_loads], [get_added_storage_units], [get_added_transformers]:
    the same body at each entity type. *)
Definition get_added {A : Type} `{Entity A} (list_1 list_2 : list A) : list A :=
  set_difference list_1 list_2.

(** [get_removed_buses] and its five siblings. *)
Definition get_removed {A : Type} `{Entity A} (list_1 list_2 : list A) : list A :=
  set_difference list_2 list_1.

(** [get_added_model_components]. *)
Definition get_added_model_components (model_1 model_2 : Model) : Model :=
  {| buses := get_added (buses model_1) (buses model_2);
     lines := get_added (lines model_1) (lines model_2);
     transformers := get_added (transformers model_1) (transformers model_2);
     generators := get_added (generators model_1) (generators model_2);
     loads := get_added (loads model_1) (loads model_2);
     storage_units := get_added (storage_units model_1) (storage_units model_2) |}.

(** [get_removed_model_components]. *)
Definition get_removed_model_components (model_1 model_2 : Model) : Model :=
  {| buses := get_removed (buses model_1) (buses model_2);
     lines := get_removed (lines model_1) (lines model_2);
     transformers := get_removed (transformers model_1) (transformers model_2);
     generators := get_removed (generators model_1) (generators model_2);
     loads := get_removed (loads model_1) (loads model_2);
     storage_units := get_removed (storage_units model_1) (storage_units model_2) |}.

(** The key of an entity occurs among the keys of a list. *)
Definition key_in {A : Type} `{Entity A} (x : A) (l : list A) : Prop :=
  In (key x) (map key l).

(** The model part of [SmartGridTable.force_calculate]. *)
Definition table_force_calculate (p : ModelProcessor) (model : Model)
  : option (ModelProcessor * list Model * Model) :=
  match force_calculate (set_input_model model p) with
  | None => None
  | Some (p', dispatched) =>
      let model' := reset_changed_components model in
      Some ({| input_model := Some model';
               segmented_model_list :=
                 map reset_changed_components (segmented_model_list p');
               previous_segmented_model_list := previous_segmented_model_list p' |},
            dispatched, model')
  end.

Definition method_eqb (a b : Method) : bool :=
  match a, b with
  | Lopf, Lopf | Lpf, Lpf | Pf, Pf | Optimize, Optimize => true
  | _, _ => false
  end.

(** A calculation instance as its constructor leaves it. *)
Definition fresh_instance (method : Method) : Calculator :=
  {| calc_method := method; calc_input_model := None;
     calc_snapshots := []; calc_status := ""; calc_condition := "";
     calc_time := 0; network_build_time := 0 |}.

(** [CalculatorThreadManager.set_calculation_method]. *)
Definition manager_set_calculation_method (method : Method)
    (mgr : CalculatorThreadManager) : CalculatorThreadManager :=
  {| worker_threads :=
       if negb (method_eqb (calculation_method mgr) method)
       then map (fun s => {| thread := thread s; instance := fresh_instance method;
                             alive := alive s; events := events s |})
                (worker_threads mgr)
       else worker_threads mgr;
     calculation_method := method;
     snapshots := snapshots mgr |}.

(** [CalculatorThreadManager.set_snapshots]. *)
Definition manager_set_snapshots (snaps : list Z)
    (mgr : CalculatorThreadManager) : CalculatorThreadManager :=
  {| worker_threads :=
       map (fun s =>
              {| thread :=
                   {| td_model := td_model (thread s); td_snapshots := snaps;
                      model_id := model_id (thread s);
                      wakeup_event := wakeup_event (thread s);
                      finished_event := finished_event (thread s);
                      calculation_time := calculation_time (thread s);
                      build_time := build_time (thread s);
                      status := status (thread s);
                      status_extended := status_extended (thread s) |};
                 instance := instance s; alive := alive s; events := events s |})
           (worker_threads mgr);
     calculation_method := calculation_method mgr;
     snapshots := snaps |}.

(** Every slot computes with the method of the manager and holds the
    snapshots of the manager. *)
Definition pool_consistent (mgr : CalculatorThreadManager) : Prop :=
  forall s, In s (worker_threads mgr) ->
    calc_method (instance s) = calculation_method mgr
    /\ td_snapshots (thread s) = snapshots mgr.

(** An action leaves alone what the manager set up in a slot. *)
Definition keeps_setup {A : Type} (m : W A) : Prop :=
  forall s,
    calc_method (instance (snd (m s))) = calc_method (instance s)
    /\ td_snapshots (thread (snd (m s))) = td_snapshots (thread s)
    /\ td_model (thread (snd (m s))) = td_model (thread s)
    /\ model_id (thread (snd (m s))) = model_id (thread s).

(** The segment has something to feed it, as the given calculator sees it:
    the segment passes the "no generation" test of the calculator.  No such
    test is known of the optimize class. *)
Definition has_generation (method : Method) (m : Model) : Prop :=
  match method with
  | Lpf => generators m <> []
  | Lopf | Pf => generators m <> [] \/ storage_units m <> []
  | Optimize => True
  end.

(** The calculator of the slot gets as far as [_retrieve_results]. *)
Definition retrieval_reached (method : Method) (ext : Externals) (m : Model)
  : Prop :=
  match method with
  | Lopf => has_generation Lopf m /\ ext_lopf ext = Returns ("ok", "optimal")
  | Lpf => has_generation Lpf m /\ ext_lpf ext = Returns tt
  | Pf => has_generation Pf m /\ ext_lpf ext = Returns tt
          /\ ext_pf ext = Returns tt
  | Optimize => False
  end.

(** A call that stands outside every [try] raises before the completion
    signal: the build of the network; the solver under [lopf]; the
    [calculate] of the optimize class; the retrieval of the results. *)
Definition raises_before_signal (method : Method) (ext : Externals) (m : Model)
  : Prop :=
  ext_build ext = Raises
  \/ (method = Lopf /\ has_generation Lopf m /\ ext_lopf ext = Raises)
  \/ (method = Optimize /\ ext_optimize ext = Raises)
  \/ (retrieval_reached method ext m /\ ext_retrieve ext = Raises).

(** [x.active = v]. *)
Definition set_active {A : Type} `{Entity A} (v : bool) (x : A) : A :=
  with_base {| name := name (base x); bus0 := bus0 (base x);
               active := v; changed := changed (base x) |} x.

(** The model with the active flag of every bus [b] set to [flag b]. *)
Definition with_bus_flags (flag : Bus -> bool) (m : Model) : Model :=
  {| buses := map (fun b => set_active (flag b) b) (buses m);
     lines := lines m; transformers := transformers m;
     generators := generators m; loads := loads m;
     storage_units := storage_units m |}.


(** No entity of the model carries the changed flag. *)
Definition flag_free (m : Model) : Prop :=
  (forall x, In x (buses m) -> echanged x = false)
  /\ (forall x, In x (lines m) -> echanged x = false)
  /\ (forall x, In x (transformers m) -> echanged x = false)
  /\ (forall x, In x (generators m) -> echanged x = false)
  /\ (forall x, In x (loads m) -> echanged x = false)
  /\ (forall x, In x (storage_units m) -> echanged x = false).

(** Some entity of the model carries the changed flag. *)
Definition flagged (m : Model) : Prop :=
  (exists x, In x (buses m) /\ echanged x = true)
  \/ (exists x, In x (lines m) /\ echanged x = true)
  \/ (exists x, In x (transformers m) /\ echanged x = true)
  \/ (exists x, In x (generators m) /\ echanged x = true)
  \/ (exists x, In x (loads m) /\ echanged x = true)
  \/ (exists x, In x (storage_units m) /\ echanged x = true).

(** The test made on a new segment against one cached segment. *)
Definition same_as_cached (model existing_model : Model) : bool :=
  compare_model_components model existing_model
  && compare_model_structure model existing_model.

(* ================================================================== *)
(** * Entity equality and the two comparison predicates *)
(* ================================================================== *)

Section ListEq.
Context {A : Type} `{Entity A}.

Lemma entity_eqb_key (x y : A) : entity_eqb x y = true <-> key x = key y.
Proof.
  unfold entity_eqb, key. rewrite andb_true_iff, String.eqb_eq, Bool.eqb_true_iff.
  split.
  - intros [-> ->]. reflexivity.
  - intros E. injection E as E1 E2. auto.
Qed.

Lemma list_eqb_keys (l1 l2 : list A) :
  list_eqb l1 l2 = true <-> map key l1 = map key l2.
Proof.
  revert l2. induction l1 as [|x t1 IH]; intros [|y t2]; simpl.
  - split; reflexivity.
  - split; discriminate.
  - split; discriminate.
  - rewrite andb_true_iff, entity_eqb_key, IH. split.
    + intros [E1 E2]. rewrite E1, E2. reflexivity.
    + intros E. injection E as E1 E2 E3. unfold key.
      rewrite E1, E2. split; [reflexivity | exact E3].
Qed.

Lemma list_eqb_refl (l : list A) : list_eqb l l = true.
Proof. apply list_eqb_keys. reflexivity. Qed.

Lemma keys_length (l1 l2 : list A) :
  map key l1 = map key l2 -> List.length l1 = List.length l2.
Proof.
  intros E. rewrite <- (length_map key l1), <- (length_map key l2), E. reflexivity.
Qed.
End ListEq.

Lemma compare_model_structure_keys (a b : Model) :
  compare_model_structure a b = true
  <-> map key (buses a) = map key (buses b)
      /\ map key (lines a) = map key (lines b).
Proof.
  unfold compare_model_structure. split.
  - intros E.
    destruct (list_eqb (buses a) (buses b)) eqn:Eb;
      destruct (list_eqb (lines a) (lines b)) eqn:El;
      try (destruct (_ || _); simpl in E; discriminate).
    split; apply list_eqb_keys; assumption.
  - intros [Eb El].
    rewrite (keys_length _ _ Eb), (keys_length _ _ El), !Nat.eqb_refl. simpl.
    apply list_eqb_keys in Eb, El. rewrite Eb, El. reflexivity.
Qed.

Lemma compare_model_components_keys (a b : Model) :
  compare_model_components a b = true
  <-> map key (generators a) = map key (generators b)
      /\ map key (loads a) = map key (loads b)
      /\ map key (storage_units a) = map key (storage_units b)
      /\ map key (transformers a) = map key (transformers b).
Proof.
  unfold compare_model_components. split.
  - intros E.
    destruct (list_eqb (generators a) (generators b)) eqn:Eg;
      destruct (list_eqb (loads a) (loads b)) eqn:El;
      destruct (list_eqb (storage_units a) (storage_units b)) eqn:Es;
      destruct (list_eqb (transformers a) (transformers b)) eqn:Et;
      try (destruct (_ || _); simpl in E; discriminate).
    repeat split; apply list_eqb_keys; assumption.
  - intros (Eg & El & Es & Et).
    rewrite (keys_length _ _ Eg), (keys_length _ _ El),
      (keys_length _ _ Es), (keys_length _ _ Et), !Nat.eqb_refl. simpl.
    apply list_eqb_keys in Eg, El, Es, Et. rewrite Eg, El, Es, Et. reflexivity.
Qed.

(** C7 (as amended): both predicates compare the entity lists position by
    position under the [(name, changed)] key: structural equality holds
    exactly when the bus lists and the line lists carry the same key
    sequences, component equality exactly when the generator, load,
    storage-unit and transformer lists do. *)
Theorem compare_predicates_are_sequence_based (a b : Model) :
  (compare_model_structure a b = true
   <-> map key (buses a) = map key (buses b)
       /\ map key (lines a) = map key (lines b))
  /\ (compare_model_components a b = true
      <-> map key (generators a) = map key (generators b)
          /\ map key (loads a) = map key (loads b)
          /\ map key (storage_units a) = map key (storage_units b)
          /\ map key (transformers a) = map key (transformers b)).
Proof.
  split; [apply compare_model_structure_keys | apply compare_model_components_keys].
Qed.

(** C7 (counterexample): two models with the same bus set and the same line
    set, listed in a different order, are not structurally equal, so the
    structural predicate is not the set-based one. *)
Lemma compare_model_structure_not_set_based :
  ~ (forall a b : Model,
       compare_model_structure a b = true
       <-> same_entity_set (buses a) (buses b)
           /\ same_entity_set (lines a) (lines b)).
Proof.
  intros Hspec.
  destruct (Hspec (two_bus_model "bus_0" "bus_1") (two_bus_model "bus_1" "bus_0"))
    as [_ Hback].
  assert (Hfalse : compare_model_structure (two_bus_model "bus_0" "bus_1")
                     (two_bus_model "bus_1" "bus_0") = false) by reflexivity.
  rewrite Hback in Hfalse; [discriminate|].
  split; intros k; simpl; tauto.
Qed.

(* ================================================================== *)
(** * The compile loop in closed form *)
(* ================================================================== *)

Section UpdateNth.
Context {A : Type}.

Lemma length_update_nth (i : nat) (f : A -> A) (l : list A) :
  List.length (update_nth i f l) = List.length l.
Proof.
  revert i. induction l as [|x tl IH]; intros [|i]; simpl; auto.
Qed.

Lemma nth_error_update_nth (i j : nat) (f : A -> A) (l : list A) :
  nth_error (update_nth i f l) j
  = if Nat.eqb i j then option_map f (nth_error l j) else nth_error l j.
Proof.
  revert i j. induction l as [|x tl IH]; intros [|i] [|j]; simpl; auto.
  - destruct (Nat.eqb _ _); reflexivity.
Qed.
End UpdateNth.

Lemma place_fold_nth (input : Model) (bi : BusIndex) (n : nat) (ml : list Model)
    (j : nat) :
  nth_error (fold_left (place input bi) (seq 0 n) ml) j
  = option_map (fun m => if (segment bi =? Z.of_nat j) && (j <? n)%nat
                         then add_for_bus input bi m else m)
      (nth_error ml j).
Proof.
  revert ml. induction n as [|n IH]; intros ml.
  - simpl. rewrite andb_false_r. destruct (nth_error ml j); reflexivity.
  - rewrite seq_S, fold_left_app. simpl. unfold place at 1.
    destruct (segment bi =? Z.of_nat n) eqn:En.
    + rewrite nth_error_update_nth, IH.
      destruct (Nat.eqb n j) eqn:Enj.
      * apply Nat.eqb_eq in Enj. subst j.
        assert (F1 : (n <? n)%nat = false) by apply Nat.ltb_irrefl.
        assert (F2 : (n <? S n)%nat = true) by (apply Nat.ltb_lt; lia).
        rewrite F1, F2, andb_false_r, En. simpl.
        destruct (nth_error ml n); reflexivity.
      * apply Nat.eqb_neq in Enj. apply Z.eqb_eq in En.
        assert (F : (segment bi =? Z.of_nat j) = false) by (apply Z.eqb_neq; lia).
        rewrite F. reflexivity.
    + rewrite IH.
      destruct (segment bi =? Z.of_nat j) eqn:Ej; simpl; [|reflexivity].
      assert (n <> j) by (apply Z.eqb_eq in Ej; apply Z.eqb_neq in En; lia).
      assert (F : (j <? n)%nat = (j <? S n)%nat).
      { destruct (j <? n)%nat eqn:E1; destruct (j <? S n)%nat eqn:E2;
          try reflexivity;
          [apply Nat.ltb_lt in E1; apply Nat.ltb_ge in E2
          |apply Nat.ltb_ge in E1; apply Nat.ltb_lt in E2]; lia. }
      rewrite F. reflexivity.
Qed.

Lemma place_bus_nth (input : Model) (bi : BusIndex) (k : nat) (ml : list Model)
    (i : nat) :
  (i < k)%nat ->
  nth_error (place_bus input k ml bi) i
  = option_map (fun m => if segment bi =? Z.of_nat i then add_for_bus input bi m else m)
      (nth_error ml i).
Proof.
  intros Hi. unfold place_bus. rewrite place_fold_nth.
  apply Nat.ltb_lt in Hi. rewrite Hi, andb_true_r. reflexivity.
Qed.

Lemma place_bus_length (input : Model) (bi : BusIndex) (k : nat) (ml : list Model) :
  List.length (place_bus input k ml bi) = List.length ml.
Proof.
  unfold place_bus. generalize (seq 0 k). intros ids. revert ml.
  induction ids as [|i ids IH]; intros ml; simpl; [reflexivity|].
  rewrite IH. unfold place. destruct (_ =? _); [apply length_update_nth | reflexivity].
Qed.

Lemma model_app_empty (m : Model) : model_app m empty_model = m.
Proof. destruct m. unfold model_app. simpl. rewrite !app_nil_r. reflexivity. Qed.

Lemma model_app_empty_l (m : Model) : model_app empty_model m = m.
Proof. destruct m. reflexivity. Qed.

Lemma model_app_assoc (a b c : Model) :
  model_app (model_app a b) c = model_app a (model_app b c).
Proof. unfold model_app. simpl. rewrite <- !app_assoc. reflexivity. Qed.

Lemma model_eta (m : Model) :
  m = {| buses := buses m; lines := lines m; transformers := transformers m;
         generators := generators m; loads := loads m;
         storage_units := storage_units m |}.
Proof. destruct m. reflexivity. Qed.

Lemma add_lines_fold (ls : list Line) (m : Model) :
  fold_left (fun acc l => add_line l acc) ls m
  = model_app m {| buses := []; lines := ls; transformers := []; generators := [];
                   loads := []; storage_units := [] |}.
Proof.
  revert m. induction ls as [|l ls IH]; intros m; simpl.
  - symmetry. apply model_app_empty.
  - rewrite IH. unfold model_app, add_line. simpl.
    rewrite !app_nil_r, <- app_assoc. reflexivity.
Qed.

Lemma add_transformers_fold (ts : list Transformer) (m : Model) :
  fold_left (fun acc t => add_transformer t acc) ts m
  = model_app m {| buses := []; lines := []; transformers := ts; generators := [];
                   loads := []; storage_units := [] |}.
Proof.
  revert m. induction ts as [|t ts IH]; intros m; simpl.
  - symmetry. apply model_app_empty.
  - rewrite IH. unfold model_app, add_transformer. simpl.
    rewrite !app_nil_r, <- app_assoc. reflexivity.
Qed.

Lemma add_generators_fold (gs : list Generator) (m : Model) :
  fold_left (fun acc g => add_generator g acc) gs m
  = model_app m {| buses := []; lines := []; transformers := []; generators := gs;
                   loads := []; storage_units := [] |}.
Proof.
  revert m. induction gs as [|g gs IH]; intros m; simpl.
  - symmetry. apply model_app_empty.
  - rewrite IH. unfold model_app, add_generator. simpl.
    rewrite !app_nil_r, <- app_assoc. reflexivity.
Qed.

Lemma add_loads_fold (ls : list Load) (m : Model) :
  fold_left (fun acc l => add_load l acc) ls m
  = model_app m {| buses := []; lines := []; transformers := []; generators := [];
                   loads := ls; storage_units := [] |}.
Proof.
  revert m. induction ls as [|l ls IH]; intros m; simpl.
  - symmetry. apply model_app_empty.
  - rewrite IH. unfold model_app, add_load. simpl.
    rewrite !app_nil_r, <- app_assoc. reflexivity.
Qed.

Lemma add_storage_units_fold (us : list StorageUnit) (m : Model) :
  fold_left (fun acc u => add_storage_unit u acc) us m
  = model_app m {| buses := []; lines := []; transformers := []; generators := [];
                   loads := []; storage_units := us |}.
Proof.
  revert m. induction us as [|u us IH]; intros m; simpl.
  - symmetry. apply model_app_empty.
  - rewrite IH. unfold model_app, add_storage_unit. simpl.
    rewrite !app_nil_r, <- app_assoc. reflexivity.
Qed.

Lemma add_for_bus_app (input : Model) (bi : BusIndex) (m : Model) :
  add_for_bus input bi m
  = model_app m
      {| buses := indexed_bus input bi;
         lines := attached_active (bus_name bi) (lines input);
         transformers := attached_active (bus_name bi) (transformers input);
         generators := attached (bus_name bi) (generators input);
         loads := attached (bus_name bi) (loads input);
         storage_units := attached (bus_name bi) (storage_units input) |}.
Proof.
  unfold add_for_bus.
  rewrite add_storage_units_fold, add_loads_fold, add_generators_fold,
    add_transformers_fold, add_lines_fold.
  unfold add_indexed_bus, indexed_bus.
  destruct (nth_error (buses input) (index bi)); unfold model_app, add_bus; simpl;
    rewrite ?app_nil_r; reflexivity.
Qed.

Lemma segment_of_cons (input : Model) (bi : BusIndex) (bil : list BusIndex) (i : nat) :
  segment_of input (bi :: bil) i
  = if segment bi =? Z.of_nat i
    then model_app (add_for_bus input bi empty_model) (segment_of input bil i)
    else segment_of input bil i.
Proof.
  unfold segment_of, entries_of. simpl.
  destruct (segment bi =? Z.of_nat i); [|reflexivity].
  rewrite add_for_bus_app. unfold model_app. simpl. reflexivity.
Qed.

Lemma compile_fold_nth (input : Model) (k : nat) (bil : list BusIndex)
    (ml : list Model) (i : nat) :
  (i < k)%nat ->
  nth_error (fold_left (place_bus input k) bil ml) i
  = option_map (fun m => model_app m (segment_of input bil i)) (nth_error ml i).
Proof.
  intros Hi. revert ml. induction bil as [|bi bil IH]; intros ml; simpl.
  - destruct (nth_error ml i) as [m|]; simpl; [|reflexivity].
    f_equal. symmetry. apply (model_app_empty m).
  - rewrite IH, place_bus_nth by exact Hi.
    destruct (nth_error ml i) as [m|]; simpl; [|reflexivity].
    f_equal. rewrite segment_of_cons.
    destruct (segment bi =? Z.of_nat i); [|reflexivity].
    rewrite (add_for_bus_app input bi m), (add_for_bus_app input bi empty_model).
    rewrite !model_app_assoc. f_equal.
Qed.

Lemma compile_fold_length (input : Model) (k : nat) (bil : list BusIndex)
    (ml : list Model) :
  List.length (fold_left (place_bus input k) bil ml) = List.length ml.
Proof.
  revert ml. induction bil as [|bi bil IH]; intros ml; simpl; [reflexivity|].
  rewrite IH. apply place_bus_length.
Qed.

(** The compile loop builds exactly the segments [0 .. models_found - 1]. *)
Lemma compile_models_closed_form (input : Model) (k : nat) (bil : list BusIndex) :
  compile_models input k bil = map (segment_of input bil) (seq 0 k).
Proof.
  apply nth_error_ext. intros i. unfold compile_models.
  destruct (Nat.lt_ge_cases i k) as [Hi|Hi].
  - rewrite compile_fold_nth by exact Hi.
    rewrite nth_error_map, nth_error_repeat by exact Hi.
    rewrite (nth_error_nth' (seq 0 k) 0%nat) by (rewrite length_seq; exact Hi).
    rewrite seq_nth by exact Hi. simpl. rewrite model_app_empty_l. reflexivity.
  - rewrite (proj2 (nth_error_None _ _)).
    + symmetry. apply nth_error_None. rewrite length_map, length_seq. exact Hi.
    + rewrite compile_fold_length, repeat_length. exact Hi.
Qed.

(* ================================================================== *)
(** * The flood fill *)
(* ================================================================== *)

Lemma in_mid {A : Type} (x y : A) (pre post : list A) :
  In x (pre ++ y :: post) <-> y = x \/ In x (pre ++ post).
Proof. rewrite !in_app_iff. simpl. tauto. Qed.

Lemma shape_assign (k : Z) (pre post : list BusIndex) (y : BusIndex) :
  shape (pre ++ set_segment k y :: post) = shape (pre ++ y :: post).
Proof. unfold shape. rewrite !map_app. reflexivity. Qed.

Lemma shape_names (l : list BusIndex) : map snd (shape l) = map bus_name l.
Proof. unfold shape. rewrite map_map. reflexivity. Qed.

Lemma unassigned_assign (k : Z) (pre post : list BusIndex) (y : BusIndex) :
  k <> -1 -> segment y = -1 ->
  S (unassigned (pre ++ set_segment k y :: post)) = unassigned (pre ++ y :: post).
Proof.
  intros Hk Hy. unfold unassigned. rewrite !filter_app, !length_app. simpl.
  rewrite Hy. simpl.
  assert (F : (k =? -1) = false) by (apply Z.eqb_neq; exact Hk).
  rewrite F. simpl. lia.
Qed.

Lemma unassigned_le_length (l : list BusIndex) :
  (unassigned l <= List.length l)%nat.
Proof. apply filter_length_le. Qed.

Lemma unassigned_zero (l : list BusIndex) :
  all_allocated l = true <-> unassigned l = 0%nat.
Proof.
  unfold all_allocated, unassigned. induction l as [|b tl IH]; simpl.
  - tauto.
  - destruct (segment b =? -1); simpl.
    + split; [discriminate | intros E; discriminate E].
    + exact IH.
Qed.

Lemma all_allocated_In (l : list BusIndex) :
  all_allocated l = true <-> forall x, In x l -> segment x <> -1.
Proof.
  unfold all_allocated. rewrite forallb_forall. split; intros Hall x Hx.
  - specialize (Hall x Hx). apply negb_true_iff, Z.eqb_neq in Hall. exact Hall.
  - apply negb_true_iff, Z.eqb_neq. apply Hall. exact Hx.
Qed.

(** ** The two search loops *)

Lemma mark_other_true (t : string) (k : Z) (l l' : list BusIndex) :
  mark_other t k l = (l', true) ->
  exists pre y post, l = pre ++ y :: post /\ l' = pre ++ set_segment k y :: post
                     /\ bus_name y = t /\ segment y = -1.
Proof.
  revert l'. induction l as [|b tl IH]; intros l' E; simpl in E; [discriminate|].
  destruct (String.eqb (bus_name b) t && (segment b =? -1)) eqn:Eb.
  - injection E as <-. apply andb_true_iff in Eb as [En Es].
    apply String.eqb_eq in En. apply Z.eqb_eq in Es.
    exists [], b, tl. auto.
  - destruct (mark_other t k tl) as [tl' a] eqn:Et.
    injection E as <- ->.
    destruct (IH tl' eq_refl) as (pre & y & post & -> & -> & Hn & Hs).
    exists (b :: pre), y, post. auto.
Qed.

Lemma mark_other_false (t : string) (k : Z) (l l' : list BusIndex) :
  mark_other t k l = (l', false) ->
  l' = l /\ forall y, In y l -> bus_name y = t -> segment y <> -1.
Proof.
  revert l'. induction l as [|b tl IH]; intros l' E; simpl in E.
  - injection E as <-. split; [reflexivity | intros y []].
  - destruct (String.eqb (bus_name b) t && (segment b =? -1)) eqn:Eb; [discriminate|].
    destruct (mark_other t k tl) as [tl' a] eqn:Et.
    injection E as <- ->.
    destruct (IH tl' eq_refl) as [-> Hall].
    split; [reflexivity|].
    intros y [<-|Hy] Hn.
    + apply andb_false_iff in Eb as [Eb|Eb].
      * apply String.eqb_neq in Eb. contradiction.
      * apply Z.eqb_neq in Eb. exact Eb.
    + apply Hall; assumption.
Qed.

Lemma claim_first_cases (k : Z) (l : list BusIndex) :
  (all_allocated l = true /\ claim_first k l = l)
  \/ exists pre y post, l = pre ++ y :: post
                        /\ claim_first k l = pre ++ set_segment k y :: post
                        /\ segment y = -1.
Proof.
  induction l as [|b tl IH]; simpl.
  - left. auto.
  - destruct (segment b =? -1) eqn:Eb.
    + right. exists [], b, tl. apply Z.eqb_eq in Eb. auto.
    + destruct IH as [[Ha Hc]|(pre & y & post & -> & Hc & Hy)].
      * left. unfold all_allocated in *. simpl. rewrite ?Eb, Hc. auto.
      * right. exists (b :: pre), y, post. rewrite Hc. auto.
Qed.

(** ** Assigning one entry keeps the invariant *)

Lemma linked_sym (conns : list Connection) (a b : string) :
  linked conns a b -> linked conns b a.
Proof. intros (c & Hc & H). exists c. tauto. Qed.

Lemma connected_sym (conns : list Connection) (names : list string) (a b : string) :
  connected conns names a b -> connected conns names b a.
Proof.
  unfold connected. induction 1 as [a b (Ha & Hb & L)| |a b c _ IH1 _ IH2].
  - apply rt_step. repeat split; auto using linked_sym.
  - apply rt_refl.
  - eapply rt_trans; eassumption.
Qed.

Lemma assign_inv (conns : list Connection) (sh : list (nat * string)) (k : Z)
    (pre post : list BusIndex) (y : BusIndex) :
  flood_inv conns sh k (pre ++ y :: post) ->
  0 <= k -> segment y = -1 ->
  (forall x, In x (pre ++ y :: post) -> segment x = k ->
             connected conns (map snd sh) (bus_name y) (bus_name x)) ->
  flood_inv conns sh k (pre ++ set_segment k y :: post).
Proof.
  intros [Hsh Hr Hs Hc] Hk Hy Hsrc. split.
  - rewrite shape_assign. exact Hsh.
  - intros x Hx. apply in_mid in Hx as [<-|Hx].
    + simpl. lia.
    + apply Hr, in_mid. auto.
  - intros x1 x2 H1 H2 E Ne.
    apply in_mid in H1 as [<-|H1]; apply in_mid in H2 as [<-|H2]; simpl in *.
    + apply rt_refl.
    + apply Hsrc; [apply in_mid; auto | congruence].
    + apply connected_sym, Hsrc; [apply in_mid; auto | congruence].
    + apply Hs; try assumption; apply in_mid; auto.
  - intros x1 x2 H1 H2 L Ne Lt.
    apply in_mid in H1 as [<-|H1]; apply in_mid in H2 as [<-|H2]; simpl in *;
      try lia.
    + exfalso. apply Ne. rewrite <- Hy. symmetry.
      apply (Hc x1 y); try assumption; apply in_mid; auto.
    + apply Hc; try assumption; apply in_mid; auto.
Qed.

Lemma mark_other_inv (conns : list Connection) (sh : list (nat * string)) (k : Z)
    (t nm : string) (l : list BusIndex) :
  flood_inv conns sh k l -> 0 <= k ->
  has_source k nm l -> linked conns t nm ->
  flood_inv conns sh k (fst (mark_other t k l))
  /\ has_source k nm (fst (mark_other t k l)).
Proof.
  intros Hinv Hk (x0 & Hx0 & Hn0 & Hs0) L.
  destruct (mark_other t k l) as [l' [|]] eqn:E; simpl.
  - apply mark_other_true in E as (pre & y & post & -> & -> & Hn & Hy).
    split.
    + apply assign_inv; try assumption.
      intros x Hx Hsx. rewrite Hn.
      apply rt_trans with nm.
      * apply rt_step. repeat split; try assumption.
        -- rewrite <- (inv_shape Hinv), shape_names, <- Hn.
           apply in_map, in_elt.
        -- rewrite <- (inv_shape Hinv), shape_names, <- Hn0.
           apply in_map. exact Hx0.
      * rewrite <- Hn0. apply (inv_sound Hinv); try assumption; lia.
    + exists x0. repeat split; try assumption.
      apply in_mid in Hx0 as [<-|Hx0]; [lia|]. apply in_mid. auto.
  - apply mark_other_false in E as [-> _]. split; [assumption|].
    exists x0. auto.
Qed.

(** ** The flag and the number of unassigned entries *)

Lemma progress_refl (st : list BusIndex * bool) : progress st st.
Proof. unfold progress. repeat split; auto; intros; congruence. Qed.

Lemma progress_trans (a b c : list BusIndex * bool) :
  progress a b -> progress b c -> progress a c.
Proof.
  unfold progress. intros (L1 & M1 & S1 & I1) (L2 & M2 & S2 & I2).
  repeat split.
  - lia.
  - auto.
  - intros Ha Hc. destruct (snd b) eqn:Eb.
    + specialize (S1 Ha eq_refl). lia.
    + specialize (S2 eq_refl Hc). lia.
  - intros Hc. rewrite (I2 Hc) in *. apply I1. rewrite <- (I2 Hc). exact Hc.
Qed.

Lemma fold_progress {X : Type} (f : list BusIndex * bool -> X -> list BusIndex * bool)
    (xs : list X) (st : list BusIndex * bool) :
  (forall s x, progress s (f s x)) -> progress st (fold_left f xs st).
Proof.
  intros Hf. revert st. induction xs as [|x xs IH]; intros st; simpl.
  - apply progress_refl.
  - eapply progress_trans; [apply Hf | apply IH].
Qed.

(** When the flag is still down after a loop, no turn of it did anything. *)
Lemma fold_unchanged {X : Type} (f : list BusIndex * bool -> X -> list BusIndex * bool)
    (xs : list X) (st : list BusIndex * bool) :
  (forall s x, progress s (f s x)) ->
  snd (fold_left f xs st) = false ->
  fold_left f xs st = st /\ forall x, In x xs -> f st x = st.
Proof.
  intros Hf. revert st. induction xs as [|x xs IH]; intros st Hflag; simpl in *.
  - split; [reflexivity | intros x []].
  - destruct (IH _ Hflag) as [E Hall].
    assert (Ex : f st x = st).
    { apply (Hf st x). rewrite <- E. exact Hflag. }
    rewrite E, Ex. split; [reflexivity|].
    intros x' [<-|Hx']; [exact Ex|]. rewrite <- Ex at 2. rewrite <- Ex at 1.
    rewrite Ex. rewrite Ex in Hall. apply Hall. exact Hx'.
Qed.

Lemma mark_other_progress (t : string) (k : Z) (l : list BusIndex) (a : bool) :
  k <> -1 ->
  progress (l, a) (fst (mark_other t k l), a || snd (mark_other t k l)).
Proof.
  intros Hk. destruct (mark_other t k l) as [l' [|]] eqn:E; simpl.
  - apply mark_other_true in E as (pre & y & post & -> & -> & Hn & Hy).
    pose proof (@unassigned_assign k pre post y Hk Hy) as U.
    unfold progress. simpl. rewrite orb_true_r.
    repeat split; try lia; auto; discriminate.
  - apply mark_other_false in E as [-> _]. rewrite orb_false_r. apply progress_refl.
Qed.

Lemma visit_connection_progress (k : Z) (nm : string) (st : list BusIndex * bool)
    (c : Connection) :
  k <> -1 -> progress st (visit_connection k nm st c).
Proof.
  intros Hk. unfold visit_connection.
  set (st1 := if String.eqb (conn_bus0 c) nm
              then let (l', a) := mark_other (conn_bus1 c) k (fst st) in (l', snd st || a)
              else st).
  assert (P1 : progress st st1).
  { subst st1. destruct (String.eqb (conn_bus0 c) nm); [|apply progress_refl].
    pose proof (@mark_other_progress (conn_bus1 c) k (fst st) (snd st) Hk) as P.
    destruct (mark_other (conn_bus1 c) k (fst st)). destruct st. exact P. }
  apply progress_trans with st1; [exact P1|].
  destruct (String.eqb (conn_bus1 c) nm); [|apply progress_refl].
  pose proof (@mark_other_progress (conn_bus0 c) k (fst st1) (snd st1) Hk) as P.
  destruct (mark_other (conn_bus0 c) k (fst st1)). destruct st1. exact P.
Qed.

Lemma sweep_step_progress (conns : list Connection) (k : Z)
    (st : list BusIndex * bool) (p : nat) :
  k <> -1 -> progress st (sweep_step conns k st p).
Proof.
  intros Hk. unfold sweep_step.
  destruct (nth_error (fst st) p) as [b|]; [|apply progress_refl].
  destruct (segment b =? k); [|apply progress_refl].
  apply fold_progress. intros s c. apply visit_connection_progress. exact Hk.
Qed.

Lemma sweep_progress (conns : list Connection) (k : Z) (l : list BusIndex) :
  k <> -1 -> progress (l, false) (sweep conns k l).
Proof.
  intros Hk. unfold sweep. apply fold_progress.
  intros s p. apply sweep_step_progress. exact Hk.
Qed.

(** ** A quiet sweep means the segment is closed *)

Lemma visit_connection_quiet (k : Z) (nm : string) (l : list BusIndex)
    (c : Connection) :
  visit_connection k nm (l, false) c = (l, false) ->
  (conn_bus0 c = nm ->
   forall y, In y l -> bus_name y = conn_bus1 c -> segment y <> -1)
  /\ (conn_bus1 c = nm ->
      forall y, In y l -> bus_name y = conn_bus0 c -> segment y <> -1).
Proof.
  unfold visit_connection. simpl.
  destruct (String.eqb (conn_bus0 c) nm) eqn:E0;
    destruct (String.eqb (conn_bus1 c) nm) eqn:E1; simpl.
  - destruct (mark_other (conn_bus1 c) k l) as [l1 a1] eqn:M1. simpl.
    destruct (mark_other (conn_bus0 c) k l1) as [l2 a2] eqn:M2.
    intros E. injection E as -> E.
    destruct a1; [discriminate|]. destruct a2; [discriminate|].
    apply mark_other_false in M1 as [-> H1].
    apply mark_other_false in M2 as [_ H2]. split; intros _; assumption.
  - destruct (mark_other (conn_bus1 c) k l) as [l1 a1] eqn:M1.
    intros E. injection E as -> ->.
    apply mark_other_false in M1 as [_ H1].
    apply String.eqb_neq in E1. split; [intros _; assumption | contradiction].
  - destruct (mark_other (conn_bus0 c) k l) as [l2 a2] eqn:M2.
    intros E. injection E as -> ->.
    apply mark_other_false in M2 as [_ H2].
    apply String.eqb_neq in E0. split; [contradiction | intros _; assumption].
  - intros _. apply String.eqb_neq in E0, E1. split; contradiction.
Qed.

Lemma sweep_quiet (conns : list Connection) (k : Z) (l l' : list BusIndex) :
  k <> -1 -> sweep conns k l = (l', false) -> l' = l /\ closed_at conns k l.
Proof.
  intros Hk E. unfold sweep in E.
  destruct (fold_unchanged (sweep_step conns k) (seq 0 (List.length l)) (l, false))
    as [Efix Hall].
  { intros s p. apply sweep_step_progress. exact Hk. }
  { rewrite E. reflexivity. }
  rewrite E in Efix. injection Efix as ->. split; [reflexivity|].
  intros x y Hx Hy Hsx (c & Hc & Hdir).
  destruct (In_nth_error _ _ Hx) as [p Hp].
  assert (Hin : In p (seq 0 (List.length l))).
  { apply in_seq. split; [lia|]. simpl. apply nth_error_Some. congruence. }
  specialize (Hall p Hin). unfold sweep_step in Hall. simpl in Hall.
  rewrite Hp in Hall. apply Z.eqb_eq in Hsx. rewrite Hsx in Hall.
  destruct (fold_unchanged (visit_connection k (bus_name x)) conns (l, false))
    as [_ Hconn].
  { intros s c'. apply visit_connection_progress. exact Hk. }
  { rewrite Hall. reflexivity. }
  destruct (visit_connection_quiet _ _ _ (Hconn c Hc)) as [H0 H1].
  destruct Hdir as [[D0 D1]|[D0 D1]].
  - apply (H0 D0 y Hy). congruence.
  - apply (H1 D1 y Hy). congruence.
Qed.

(** ** The sweeps keep the invariant *)

Section FloodInvariant.
Variable conns : list Connection.
Variable sh : list (nat * string).
Variable k : Z.
Hypothesis Hk : 0 <= k.

Lemma visit_connection_inv (nm : string) (st : list BusIndex * bool)
    (c : Connection) :
  In c conns ->
  flood_inv conns sh k (fst st) /\ has_source k nm (fst st) ->
  flood_inv conns sh k (fst (visit_connection k nm st c))
  /\ has_source k nm (fst (visit_connection k nm st c)).
Proof.
  intros Hc [Hinv Hsrc]. unfold visit_connection.
  set (st1 := if String.eqb (conn_bus0 c) nm
              then let (l', a) := mark_other (conn_bus1 c) k (fst st)
                   in (l', snd st || a)
              else st).
  assert (H1 : flood_inv conns sh k (fst st1) /\ has_source k nm (fst st1)).
  { subst st1. destruct (String.eqb (conn_bus0 c) nm) eqn:E0; [|auto].
    apply String.eqb_eq in E0.
    pose proof (@mark_other_inv conns sh k (conn_bus1 c) nm (fst st)
                  Hinv Hk Hsrc) as P.
    destruct (mark_other (conn_bus1 c) k (fst st)). simpl in *.
    apply P. exists c. auto. }
  destruct H1 as [Hinv1 Hsrc1].
  destruct (String.eqb (conn_bus1 c) nm) eqn:E1; [|auto].
  apply String.eqb_eq in E1.
  pose proof (@mark_other_inv conns sh k (conn_bus0 c) nm (fst st1)
                Hinv1 Hk Hsrc1) as P.
  destruct (mark_other (conn_bus0 c) k (fst st1)). simpl in *.
  apply P. exists c. auto.
Qed.

Lemma visit_all_inv (nm : string) (cs : list Connection)
    (st : list BusIndex * bool) :
  incl cs conns ->
  flood_inv conns sh k (fst st) /\ has_source k nm (fst st) ->
  flood_inv conns sh k (fst (fold_left (visit_connection k nm) cs st)).
Proof.
  revert st. induction cs as [|c cs IH]; intros st Hincl H; simpl.
  - apply H.
  - apply IH.
    + intros c' Hc'. apply Hincl. right. exact Hc'.
    + apply visit_connection_inv; [apply Hincl; left; reflexivity | exact H].
Qed.

Lemma sweep_step_inv (st : list BusIndex * bool) (p : nat) :
  flood_inv conns sh k (fst st) ->
  flood_inv conns sh k (fst (sweep_step conns k st p)).
Proof.
  intros Hinv. unfold sweep_step.
  destruct (nth_error (fst st) p) as [b|] eqn:Ep; [|exact Hinv].
  destruct (segment b =? k) eqn:Eb; [|exact Hinv].
  apply visit_all_inv; [apply incl_refl|]. split; [exact Hinv|].
  exists b. apply Z.eqb_eq in Eb. apply nth_error_In in Ep. auto.
Qed.

Lemma sweep_inv (l : list BusIndex) :
  flood_inv conns sh k l -> flood_inv conns sh k (fst (sweep conns k l)).
Proof.
  intros Hinv. unfold sweep. generalize (seq 0 (List.length l)).
  intros ps. change l with (fst (l, false)) in Hinv. revert Hinv.
  generalize (l, false). induction ps as [|p ps IH]; intros st Hinv; simpl.
  - exact Hinv.
  - apply IH, sweep_step_inv, Hinv.
Qed.

(** The loop [while bus_segment_allocated] ends within the fuel, keeps the
    invariant and leaves segment [k] closed. *)
Lemma flood_fill_spec (fuel : nat) (l : list BusIndex) :
  (unassigned l < fuel)%nat ->
  flood_inv conns sh k l ->
  exists l', flood_fill fuel conns k l = Some l'
             /\ flood_inv conns sh k l'
             /\ closed_at conns k l'
             /\ (unassigned l' <= unassigned l)%nat
             /\ (unassigned l = 0%nat -> l' = l).
Proof.
  assert (Hk' : k <> -1) by lia.
  revert l. induction fuel as [|fuel IH]; intros l Hfuel Hinv; [lia|].
  simpl. pose proof (sweep_progress conns l Hk') as P.
  pose proof (sweep_inv Hinv) as Hinv'.
  destruct (sweep conns k l) as [l1 [|]] eqn:E.
  - destruct P as (P1 & _ & P3 & _).
    change (unassigned l1 <= unassigned l)%nat in P1.
    assert (P3' : (unassigned l1 < unassigned l)%nat) by (apply P3; reflexivity).
    destruct (IH l1) as (l' & E' & I' & C' & U' & _); [lia | exact Hinv'|].
    exists l'. split; [exact E'|]. split; [exact I'|]. split; [exact C'|].
    split; [lia | intros Hz; exfalso; lia].
  - apply sweep_quiet in E as [-> C]; [|exact Hk'].
    exists l. split; [reflexivity|]. split; [exact Hinv|]. split; [exact C|].
    split; [lia | reflexivity].
Qed.
End FloodInvariant.

(** ** Opening and closing a segment *)

Section Rounds.
Variable conns : list Connection.
Variable sh : list (nat * string).

Lemma claim_first_inv (k : Z) (l : list BusIndex) :
  0 <= k -> round_start conns sh k l ->
  flood_inv conns sh k (claim_first k l)
  /\ (forall x y, In x (claim_first k l) -> In y (claim_first k l) ->
                  segment x = k -> segment y = k -> x = y)
  /\ (unassigned (claim_first k l) <= unassigned l)%nat
  /\ (all_allocated (claim_first k l) = false ->
      (unassigned (claim_first k l) < unassigned l)%nat).
Proof.
  intros Hk [Hinv Hlt].
  destruct (claim_first_cases k l)
    as [[Ha ->]|(pre & y & post & -> & -> & Hy)].
  - split; [exact Hinv|]. split.
    + intros x y Hx _ Hsx _. specialize (Hlt x Hx). lia.
    + split; [lia | congruence].
  - assert (Hk' : k <> -1) by lia.
    pose proof (@unassigned_assign k pre post y Hk' Hy) as U.
    split.
    + apply assign_inv; try assumption.
      intros x Hx Hsx. specialize (Hlt x Hx). lia.
    + split.
      * intros x1 x2 H1 H2 S1 S2.
        apply in_mid in H1 as [<-|H1]; apply in_mid in H2 as [<-|H2];
          try reflexivity; exfalso.
        -- assert (In x2 (pre ++ y :: post)) by (apply in_mid; auto).
           specialize (Hlt x2 H). lia.
        -- assert (In x1 (pre ++ y :: post)) by (apply in_mid; auto).
           specialize (Hlt x1 H). lia.
        -- assert (In x1 (pre ++ y :: post)) by (apply in_mid; auto).
           specialize (Hlt x1 H). lia.
      * split; [lia | intros _; lia].
Qed.

Lemma close_round (k : Z) (l : list BusIndex) :
  flood_inv conns sh k l -> closed_at conns k l ->
  round_start conns sh (k + 1) l.
Proof.
  intros [Hsh Hr Hs Hc] Hclosed. split; [split|].
  - exact Hsh.
  - intros x Hx. specialize (Hr x Hx). lia.
  - exact Hs.
  - intros x y Hx Hy L Ne Lt.
    destruct (Z.eq_dec (segment x) k) as [Ek|Nk].
    + pose proof (Hclosed x y Hx Hy Ek L) as Ny.
      destruct (Z.eq_dec (segment y) k) as [Eyk|Nyk]; [congruence|].
      pose proof (Hr y Hy) as Ry.
      assert (Eyx : segment x = segment y).
      { apply (Hc y x); try assumption; [apply linked_sym; exact L | lia]. }
      congruence.
    + apply Hc; try assumption. lia.
  - intros x Hx. specialize (Hr x Hx). lia.
Qed.

(** The loop [while not finished] ends within the fuel; at its end every
    entry has an id in [0 .. current_grid_id], entries sharing an id are
    connected, ids are closed under the connections, and at most one
    entry carries the last id. *)
Lemma segment_buses_spec (fuel : nat) (k0 : Z) (l : list BusIndex) :
  (unassigned l < fuel)%nat -> -1 <= k0 ->
  round_start conns sh (k0 + 1) l ->
  exists l' kf,
    segment_buses fuel conns k0 l = Some (l', kf)
    /\ flood_inv conns sh (kf + 1) l'
    /\ (forall x, In x l' -> 0 <= segment x <= kf)
    /\ 0 <= kf
    /\ (forall x y, In x l' -> In y l' ->
                    segment x = kf -> segment y = kf -> x = y).
Proof.
  revert k0 l. induction fuel as [|fuel IH]; intros k0 l Hfuel Hk0 Hstart; [lia|].
  assert (Hk : 0 <= k0 + 1) by lia.
  destruct (claim_first_inv Hk Hstart) as (Hinv1 & Huniq & Hle & Hdec).
  pose proof (unassigned_le_length (claim_first (k0 + 1) l)) as Hlen.
  destruct (@flood_fill_spec conns sh (k0 + 1) Hk
              (S (List.length (claim_first (k0 + 1) l))) (claim_first (k0 + 1) l))
    as (l2 & E2 & Hinv2 & Hclosed & Hle2 & Hsame); [lia | exact Hinv1|].
  cbn [segment_buses]. cbv zeta. rewrite E2.
  destruct (all_allocated (claim_first (k0 + 1) l)) eqn:Ea.
  - assert (E : l2 = claim_first (k0 + 1) l).
    { apply Hsame. apply unassigned_zero. exact Ea. }
    subst l2. exists (claim_first (k0 + 1) l), (k0 + 1).
    split; [reflexivity|]. split; [apply close_round; assumption|].
    split.
    + intros x Hx. pose proof (inv_range Hinv1 x Hx).
      pose proof (proj1 (all_allocated_In _) Ea x Hx). lia.
    + split; [exact Hk | exact Huniq].
  - apply (IH (k0 + 1) l2).
    + specialize (Hdec eq_refl). lia.
    + lia.
    + apply close_round; assumption.
Qed.
End Rounds.

(** ** The initial list *)

Lemma init_from_segment (i : nat) (bl : list Bus) (x : BusIndex) :
  In x (init_from i bl) -> segment x = -1.
Proof.
  revert i. induction bl as [|b tl IH]; intros i Hx; simpl in Hx; [contradiction|].
  destruct Hx as [<-|Hx]; [reflexivity | eapply IH; eassumption].
Qed.

Lemma init_from_length (i : nat) (bl : list Bus) :
  List.length (init_from i bl) = List.length bl.
Proof. revert i. induction bl as [|b tl IH]; intros i; simpl; auto. Qed.

Lemma init_round_start (conns : list Connection) (bl : list Bus) :
  round_start conns (shape (init_bus_index_list bl)) 0 (init_bus_index_list bl).
Proof.
  unfold init_bus_index_list. split; [split|].
  - reflexivity.
  - intros x Hx. rewrite (init_from_segment _ _ _ Hx). lia.
  - intros x y Hx _ _ Ne. rewrite (init_from_segment _ _ _ Hx) in Ne. congruence.
  - intros x y Hx _ _ Ne. rewrite (init_from_segment _ _ _ Hx) in Ne. congruence.
  - intros x Hx. rewrite (init_from_segment _ _ _ Hx). lia.
Qed.

(** [segment_model] always returns, and returns the closed form over a bus
    index list with the properties of [segment_buses_spec]. *)
Lemma segment_model_closed_form (input : Model) :
  exists bil kf,
    segment_model input = Some (map (segment_of input bil) (seq 0 (Z.to_nat kf)))
    /\ flood_inv (connection_list input)
         (shape (init_bus_index_list (buses input))) (kf + 1) bil
    /\ (forall x, In x bil -> 0 <= segment x <= kf)
    /\ 0 <= kf
    /\ (forall x y, In x bil -> In y bil ->
                    segment x = kf -> segment y = kf -> x = y).
Proof.
  unfold segment_model.
  pose proof (unassigned_le_length (init_bus_index_list (buses input))) as Hlen.
  destruct (@segment_buses_spec (connection_list input)
              (shape (init_bus_index_list (buses input)))
              (S (List.length (init_bus_index_list (buses input)))) (-1)
              (init_bus_index_list (buses input)))
    as (bil & kf & E & Hinv & Hrange & Hkf & Huniq).
  - lia.
  - lia.
  - apply init_round_start.
  - rewrite E. exists bil, kf. rewrite compile_models_closed_form. auto.
Qed.

(* ================================================================== *)
(** * Bus index entries and the buses they stand for *)
(* ================================================================== *)

Lemma init_from_entry (i : nat) (bl : list Bus) (x : BusIndex) :
  In x (init_from i bl) ->
  exists p b, index x = (i + p)%nat /\ nth_error bl p = Some b
              /\ bus_name x = ename b.
Proof.
  revert i. induction bl as [|b tl IH]; intros i Hx; simpl in Hx; [contradiction|].
  destruct Hx as [<-|Hx].
  - exists 0%nat, b. simpl. auto with arith.
  - destruct (IH _ Hx) as (p & b' & Hi & Hp & Hn).
    exists (S p), b'. simpl. repeat split; auto. lia.
Qed.

Lemma init_from_bus (i : nat) (bl : list Bus) (p : nat) (b : Bus) :
  nth_error bl p = Some b ->
  In ((i + p)%nat, ename b) (shape (init_from i bl)).
Proof.
  revert i p. induction bl as [|b0 tl IH]; intros i [|p] Hp; simpl in *;
    try discriminate.
  - injection Hp as ->. left. f_equal. lia.
  - right. replace (i + S p)%nat with (S i + p)%nat by lia. apply IH. exact Hp.
Qed.

Lemma init_from_names (i : nat) (bl : list Bus) :
  map snd (shape (init_from i bl)) = map ename bl.
Proof.
  revert i. induction bl as [|b tl IH]; intros i; simpl; [reflexivity|].
  f_equal. apply IH.
Qed.

Section Entries.
Variable bl : list Bus.
Variable l : list BusIndex.
Hypothesis Hshape : shape l = shape (init_bus_index_list bl).

Lemma entry_bus (x : BusIndex) :
  In x l ->
  exists b, nth_error bl (index x) = Some b /\ ename b = bus_name x.
Proof.
  intros Hx.
  assert (Hin : In (index x, bus_name x) (shape l)).
  { unfold shape. apply (in_map (fun b => (index b, bus_name b))). exact Hx. }
  rewrite Hshape in Hin. unfold shape in Hin.
  apply in_map_iff in Hin as (x0 & E0 & Hx0). injection E0 as Ei En.
  destruct (init_from_entry _ _ _ Hx0) as (p & b & Hi & Hp & Hn).
  exists b. simpl in Hi. split; congruence.
Qed.

Lemma bus_entry (b : Bus) :
  In b bl ->
  exists x, In x l /\ nth_error bl (index x) = Some b /\ bus_name x = ename b.
Proof.
  intros Hb. destruct (In_nth_error _ _ Hb) as [p Hp].
  pose proof (init_from_bus 0 _ _ Hp) as Hin.
  fold (init_bus_index_list bl) in Hin. rewrite <- Hshape in Hin.
  unfold shape in Hin. apply in_map_iff in Hin as (x & E & Hx).
  injection E as Ei En. simpl in Ei. exists x. subst p. auto.
Qed.

Lemma entry_names : map bus_name l = map ename bl.
Proof.
  rewrite <- shape_names, Hshape. apply init_from_names.
Qed.
End Entries.

Lemma NoDup_map_In_eq {A B : Type} (f : A -> B) (l : list A) (x y : A) :
  NoDup (map f l) -> In x l -> In y l -> f x = f y -> x = y.
Proof.
  induction l as [|a tl IH]; simpl; intros Hnd Hx Hy E; [contradiction|].
  inversion Hnd as [|? ? Hnotin Hnd']; subst.
  destruct Hx as [->|Hx]; destruct Hy as [->|Hy]; auto.
  - exfalso. apply Hnotin. rewrite E. apply in_map. exact Hy.
  - exfalso. apply Hnotin. rewrite <- E. apply in_map. exact Hx.
Qed.

(** Membership in the closed form of a segment. *)
Lemma segment_of_buses (input : Model) (bil : list BusIndex) (i : nat) (b : Bus) :
  In b (buses (segment_of input bil i))
  <-> exists x, In x bil /\ segment x = Z.of_nat i
                /\ nth_error (buses input) (index x) = Some b.
Proof.
  unfold segment_of, entries_of, indexed_bus. simpl. rewrite in_flat_map. split.
  - intros (x & Hx & Hb). apply filter_In in Hx as [Hx Hs].
    apply Z.eqb_eq in Hs. exists x.
    destruct (nth_error (buses input) (index x)) as [b'|]; [|contradiction].
    destruct Hb as [->|[]]. auto.
  - intros (x & Hx & Hs & Hb). exists x. split.
    + apply filter_In. split; [exact Hx | apply Z.eqb_eq; exact Hs].
    + rewrite Hb. left. reflexivity.
Qed.

Lemma segment_of_attached {A : Type} (f : BusIndex -> list A)
    (bil : list BusIndex) (i : nat) (a : A) :
  In a (flat_map f (entries_of i bil))
  <-> exists x, In x bil /\ segment x = Z.of_nat i /\ In a (f x).
Proof.
  unfold entries_of. rewrite in_flat_map. split.
  - intros (x & Hx & Ha). apply filter_In in Hx as [Hx Hs].
    apply Z.eqb_eq in Hs. eauto.
  - intros (x & Hx & Hs & Ha). exists x. split; [|exact Ha].
    apply filter_In. split; [exact Hx | apply Z.eqb_eq; exact Hs].
Qed.

(** ** The graph of the claim and the connection list *)

Lemma edge_adjacent (m : Model) (a b : string) :
  edge m a b <-> adjacent (connection_list m) (map ename (buses m)) a b.
Proof.
  unfold edge, adjacent, linked, connection_list. split.
  - intros (Ha & Hb & [(l & Hl & Hact & Hdir)|(t & Ht & Hact & Hdir)]).
    + repeat split; try assumption. exists (ConnLine l). split; [|exact Hdir].
      apply in_app_iff. left. apply in_map, filter_In. auto.
    + repeat split; try assumption. exists (ConnTransformer t). split; [|exact Hdir].
      apply in_app_iff. right. apply in_map, filter_In. auto.
  - intros (Ha & Hb & c & Hc & Hdir). repeat split; try assumption.
    apply in_app_iff in Hc as [Hc|Hc]; apply in_map_iff in Hc as (e & <- & He);
      apply filter_In in He as [He Hact]; [left | right]; exists e; auto.
Qed.



(* ================================================================== *)
(** * Properties of [segment_model] *)
(* ================================================================== *)

Lemma attached_In {A : Type} `{Entity A} (nm : string) (l : list A) (x : A) :
  In x (attached nm l) <-> In x l /\ ebus0 x = nm.
Proof. unfold attached. rewrite filter_In, String.eqb_eq. tauto. Qed.

Lemma attached_active_In {A : Type} `{Entity A} (nm : string) (l : list A) (x : A) :
  In x (attached_active nm l) <-> In x l /\ ebus0 x = nm /\ eactive x = true.
Proof.
  unfold attached_active. rewrite filter_In, andb_true_iff, String.eqb_eq. tauto.
Qed.

(** Whatever the closed form attaches to an entry sits with the bus of that
    entry. *)
Lemma closed_form_placed {A : Type} `{Entity A} (m : Model) (bil : list BusIndex)
    (n : nat) (kind : Model -> list A) (f : BusIndex -> list A) :
  shape bil = shape (init_bus_index_list (buses m)) ->
  (forall i, kind (segment_of m bil i) = flat_map f (entries_of i bil)) ->
  (forall bi x, In x (f bi) -> ebus0 x = bus_name bi) ->
  placed_by_bus0 m (map (segment_of m bil) (seq 0 n)) kind.
Proof.
  intros Hshape Hkind Hf s x Hs Hx.
  apply in_map_iff in Hs as (i & <- & _).
  rewrite Hkind in Hx. apply segment_of_attached in Hx as (bi & Hbi & Hseg & Hx).
  destruct (@entry_bus _ _ Hshape _ Hbi) as (b & Hb & Hn).
  exists b. split; [|split].
  - apply segment_of_buses. exists bi. auto.
  - eapply nth_error_In. exact Hb.
  - rewrite (Hf bi x Hx). exact Hn.
Qed.

Lemma placed_omitted {A : Type} `{Entity A} (m : Model) (segs : list Model)
    (kind : Model -> list A) :
  placed_by_bus0 m segs kind -> dangling_omitted m segs kind.
Proof.
  intros Hp x Hdangling s Hs Hx.
  destruct (Hp s x Hs Hx) as (b & _ & Hb & Hn). exact (Hdangling b Hb Hn).
Qed.

Lemma segment_model_placed (m : Model) :
  exists segs, segment_model m = Some segs
    /\ placed_by_bus0 m segs lines
    /\ placed_by_bus0 m segs transformers
    /\ placed_by_bus0 m segs generators
    /\ placed_by_bus0 m segs loads
    /\ placed_by_bus0 m segs storage_units.
Proof.
  destruct (segment_model_closed_form m) as (bil & kf & E & Hinv & _).
  pose proof (inv_shape Hinv) as Hshape.
  exists (map (segment_of m bil) (seq 0 (Z.to_nat kf))).
  split; [exact E|].
  repeat split.
  - apply closed_form_placed
      with (f := fun bi => attached_active (bus_name bi) (lines m)); auto.
    intros bi x Hx. apply attached_active_In in Hx. tauto.
  - apply closed_form_placed
      with (f := fun bi => attached_active (bus_name bi) (transformers m)); auto.
    intros bi x Hx. apply attached_active_In in Hx. tauto.
  - apply closed_form_placed
      with (f := fun bi => attached (bus_name bi) (generators m)); auto.
    intros bi x Hx. apply attached_In in Hx. tauto.
  - apply closed_form_placed
      with (f := fun bi => attached (bus_name bi) (loads m)); auto.
    intros bi x Hx. apply attached_In in Hx. tauto.
  - apply closed_form_placed
      with (f := fun bi => attached (bus_name bi) (storage_units m)); auto.
    intros bi x Hx. apply attached_In in Hx. tauto.
Qed.

(** C10: [segment_model] returns for every input, and a line, transformer,
    generator, load or storage unit whose [bus0] is the name of no bus of
    the input is in none of the returned segments; [bus1] plays no part. *)
Theorem dangling_bus0_is_omitted (m : Model) :
  exists segs, segment_model m = Some segs
    /\ dangling_omitted m segs lines
    /\ dangling_omitted m segs transformers
    /\ dangling_omitted m segs generators
    /\ dangling_omitted m segs loads
    /\ dangling_omitted m segs storage_units.
Proof.
  destruct (segment_model_placed m) as (segs & E & Hl & Ht & Hg & Hld & Hs).
  exists segs. split; [exact E|].
  repeat split; apply placed_omitted; assumption.
Qed.

Lemma closed_form_follows {A : Type} `{Entity A} (m : Model) (bil : list BusIndex)
    (n : nat) (kind : Model -> list A) :
  shape bil = shape (init_bus_index_list (buses m)) ->
  (forall i, kind (segment_of m bil i)
             = flat_map (fun bi => attached (bus_name bi) (kind m)) (entries_of i bil)) ->
  follows_bus m (map (segment_of m bil) (seq 0 n)) kind.
Proof.
  intros Hshape Hkind s b x Hs Hb Hx Hn.
  apply in_map_iff in Hs as (i & <- & _).
  apply segment_of_buses in Hb as (bi & Hbi & Hseg & Hb).
  destruct (@entry_bus _ _ Hshape _ Hbi) as (b' & Hb' & Hn').
  assert (b' = b) by congruence. subst b'.
  rewrite Hkind. apply segment_of_attached. exists bi.
  repeat split; try assumption. apply attached_In. split; congruence.
Qed.

(** A generator, load or storage unit attached to a bus of a segment is in
    that segment: the compile loop places them by [bus0] alone. *)
Lemma injections_follow_their_bus (m : Model) (segs : list Model) :
  segment_model m = Some segs ->
  follows_bus m segs generators
  /\ follows_bus m segs loads
  /\ follows_bus m segs storage_units.
Proof.
  intros E.
  destruct (segment_model_closed_form m) as (bil & kf & E' & Hinv & _).
  pose proof (inv_shape Hinv) as Hshape.
  rewrite E' in E. injection E as <-.
  split; [|split]; apply closed_form_follows; [exact Hshape | reflexivity
    | exact Hshape | reflexivity | exact Hshape | reflexivity].
Qed.

(** The compile loop does not test the active flag of a generator: the
    segment of a grid whose generator is inactive holds that generator. *)
Lemma inactive_generator_is_segmented :
  segment_model (small_grid false false) = Some [small_grid false false]
  /\ map eactive (generators (small_grid false false)) = [false].
Proof. split; reflexivity. Qed.

(** ** The active flag of the buses *)

Lemma init_from_flags (flag : Bus -> bool) (i : nat) (bl : list Bus) :
  init_from i (map (fun b => set_active (flag b) b) bl) = init_from i bl.
Proof.
  revert i. induction bl as [|b tl IH]; intros i; simpl; [reflexivity|].
  rewrite IH. destruct b. reflexivity.
Qed.

Lemma segment_of_flags (flag : Bus -> bool) (m : Model) (bil : list BusIndex)
    (i : nat) :
  segment_of (with_bus_flags flag m) bil i
  = with_bus_flags flag (segment_of m bil i).
Proof.
  unfold segment_of, with_bus_flags, indexed_bus. simpl. f_equal.
  induction (entries_of i bil) as [|bi tl IH]; simpl; [reflexivity|].
  rewrite map_app, <- IH, nth_error_map.
  destruct (nth_error (buses m) (index bi)); reflexivity.
Qed.

Lemma segment_model_flags (flag : Bus -> bool) (m : Model) :
  segment_model (with_bus_flags flag m)
  = option_map (map (with_bus_flags flag)) (segment_model m).
Proof.
  unfold segment_model.
  assert (Ei : init_bus_index_list (buses (with_bus_flags flag m))
               = init_bus_index_list (buses m)).
  { unfold init_bus_index_list. simpl. apply init_from_flags. }
  rewrite Ei.
  change (connection_list (with_bus_flags flag m)) with (connection_list m).
  destruct (segment_buses _ (connection_list m) _ _) as [[bil kf]|]; [|reflexivity].
  simpl. rewrite !compile_models_closed_form, map_map. f_equal.
  apply map_ext. intros i. apply segment_of_flags.
Qed.

(** C5 (as amended): every line and every transformer contained in a
    returned segment is active; and the active flag of a bus is not
    consulted: whatever flags the buses are given, the segments are the
    same, each bus carrying its own flag. *)
Theorem segment_edges_are_active (m : Model) (segs : list Model) :
  segment_model m = Some segs ->
  all_active segs lines /\ all_active segs transformers
  /\ forall flag, segment_model (with_bus_flags flag m)
                  = Some (map (with_bus_flags flag) segs).
Proof.
  intros E. split; [|split].
  3: { intros flag. rewrite segment_model_flags, E. reflexivity. }
  all: destruct (segment_model_closed_form m) as (bil & kf & E' & Hinv & _);
    rewrite E' in E; injection E as <-;
    intros s x Hs Hx; apply in_map_iff in Hs as (i & <- & _);
    apply segment_of_attached in Hx as (bi & _ & _ & Hx);
    apply attached_active_In in Hx; tauto.
Qed.


Lemma segment_edges_are_active_witness :
  segment_model (test_model false) = Some (segments_of (test_model false))
  /\ all_active (segments_of (test_model false)) lines
  /\ all_active (segments_of (test_model false)) transformers
  /\ segment_model (with_bus_flags (fun _ => false) (test_model false))
     = Some (map (with_bus_flags (fun _ => false)) (segments_of (test_model false))).
Proof.
  split; [vm_compute; reflexivity|].
  destruct (@segment_edges_are_active (test_model false)
              (segments_of (test_model false))) as (Hl & Ht & Hb).
  - vm_compute. reflexivity.
  - split; [exact Hl|]. split; [exact Ht|]. apply Hb.
Defined.


(** C5 (counterexample): a segment may hold an inactive bus. *)
Lemma inactive_bus_is_segmented :
  ~ (forall (m : Model) (segs : list Model),
       segment_model m = Some segs ->
       all_active segs buses /\ all_active segs lines
       /\ all_active segs transformers /\ all_active segs generators
       /\ all_active segs loads /\ all_active segs storage_units).
Proof.
  intros Hclaim.
  destruct (Hclaim inactive_bus_grid _ eq_refl) as (Hb & _).
  specialize (Hb _ {| bus_base := comp "bus_1" "" false false; v_nom := 110 |}
                (or_introl eq_refl) (or_intror (or_introl eq_refl))).
  discriminate Hb.
Qed.



(** C1 (the failing input): for the model made of a single bus the result
    is the empty list, so the bus is in no segment and the segments hold
    zero buses where the input has one. *)
Theorem single_bus_is_dropped :
  segment_model one_bus_model = Some []
  /\ bus_count (segments_of one_bus_model) = 0%nat
  /\ List.length (buses one_bus_model) = 1%nat.
Proof. repeat split. Qed.

(** With no bus at all the result is the empty list. *)
Lemma zero_buses_empty_result (m : Model) :
  buses m = [] -> segment_model m = Some [].
Proof. intros E. unfold segment_model. rewrite E. reflexivity. Qed.

(** C4 (the failing input): of two buses with no edge at all, the second
    one is in no returned segment; only the first gets its own segment. *)
Theorem isolated_last_bus_is_dropped :
  segment_model (two_bus_model "bus_0" "bus_1")
  = Some [ {| buses := [bus "bus_0"]; lines := []; transformers := [];
              generators := []; loads := []; storage_units := [] |} ]
  /\ forall s, In s (segments_of (two_bus_model "bus_0" "bus_1")) ->
               ~ In (bus "bus_1") (buses s).
Proof.
  split; [reflexivity|].
  intros s [<-|[]] [H|[]]. discriminate H.
Qed.

(* ================================================================== *)
(** * Worker slots *)
(* ================================================================== *)

(** ** What the actions write to the log *)

Lemma appends_ret {A : Type} (a : A) : appends (ret a).
Proof. intros s. exists []. simpl. rewrite app_nil_r. auto. Qed.

Lemma appends_bind {A B : Type} (m : W A) (k : A -> W B) :
  appends m -> (forall a, appends (k a)) -> appends (bind m k).
Proof.
  intros Hm Hk s. unfold bind. destruct (Hm s) as (n1 & E1 & N1).
  destruct (m s) as [[a|] s1]; simpl in *.
  - destruct (Hk a s1) as (n2 & E2 & N2). exists (n1 ++ n2).
    rewrite E2, E1, app_assoc. split; [reflexivity|].
    rewrite in_app_iff. tauto.
  - exists n1. auto.
Qed.

Lemma appends_try_except {A : Type} (m h : W A) :
  appends m -> appends h -> appends (try_except m h).
Proof.
  intros Hm Hh s. unfold try_except. destruct (Hm s) as (n1 & E1 & N1).
  destruct (m s) as [[a|] s1]; simpl in *.
  - exists n1. auto.
  - destruct (Hh s1) as (n2 & E2 & N2). exists (n1 ++ n2).
    rewrite E2, E1, app_assoc. split; [reflexivity|].
    rewrite in_app_iff. tauto.
Qed.

Lemma appends_log (e : Event) : e <> EvExport -> appends (log e).
Proof.
  intros He s. exists [e]. simpl. split; [reflexivity|].
  intros [H|[]]. congruence.
Qed.

Lemma appends_silent {A : Type} (m : W A) :
  (forall s, events (snd (m s)) = events s) -> appends m.
Proof. intros H s. exists []. rewrite app_nil_r. auto. Qed.

Lemma appends_external {A : Type} (e : Event) (o : outcome A) :
  e <> EvExport -> appends (external e o).
Proof.
  intros He. unfold external. apply appends_bind; [apply appends_log, He|].
  intros _. apply appends_silent. intros s. destruct o; reflexivity.
Qed.

Lemma appends_get_instance : appends get_instance.
Proof. apply appends_silent. reflexivity. Qed.

Lemma appends_put_instance (c : Calculator) : appends (put_instance c).
Proof. apply appends_silent. reflexivity. Qed.

Lemma appends_get_thread : appends get_thread.
Proof. apply appends_silent. reflexivity. Qed.

Lemma appends_put_thread (t : ThreadData) : appends (put_thread t).
Proof. apply appends_silent. reflexivity. Qed.

Lemma appends_raise {A : Type} : appends (fun s : Slot => (@Exn A, s)).
Proof. apply appends_silent. reflexivity. Qed.

Create HintDb slot_log.
#[local] Hint Resolve appends_ret appends_log appends_external
  appends_get_instance appends_put_instance appends_get_thread appends_put_thread
  appends_raise : slot_log.

Ltac log_steps :=
  repeat (first
    [ solve [auto with slot_log]
    | solve [apply appends_log; discriminate]
    | solve [apply appends_external; discriminate]
    | match goal with |- appends (if ?b then _ else _) => destruct b end
    | match goal with |- appends (match ?x with _ => _ end) => destruct x end
    | apply appends_try_except
    | apply appends_bind; [|intros ?] ]).

Lemma appends_set_status (st cond : string) : appends (set_status st cond).
Proof. unfold set_status. log_steps. Qed.

Lemma appends_set_calc_time (t : Z) : appends (set_calc_time t).
Proof. unfold set_calc_time. log_steps. Qed.

Lemma appends_the_input_model : appends the_input_model.
Proof. unfold the_input_model. log_steps. Qed.

#[local] Hint Resolve appends_set_status appends_set_calc_time
  appends_the_input_model : slot_log.

Lemma appends_calculate (ext : Externals) : appends (calculate ext).
Proof.
  unfold calculate. apply appends_bind; [auto with slot_log|]. intros c.
  destruct (calc_method c);
    unfold calculate_lopf, calculate_lpf, calculate_pf; log_steps.
Qed.

Lemma appends_load_instance : appends load_instance.
Proof. unfold load_instance. log_steps. Qed.

Lemma appends_build_model (ext : Externals) : appends (build_model ext).
Proof. unfold build_model. log_steps. Qed.

Lemma appends_retrieve_benchmarks : appends retrieve_benchmarks.
Proof. unfold retrieve_benchmarks. log_steps. Qed.

Lemma appends_signal_finished : appends signal_finished.
Proof. unfold signal_finished. log_steps. Qed.

Lemma appends_worker_round (ext : Externals) : appends (worker_round ext).
Proof.
  unfold worker_round.
  apply appends_bind; [apply appends_load_instance | intros _].
  apply appends_bind; [apply appends_build_model | intros _].
  apply appends_bind; [apply appends_calculate | intros _].
  apply appends_bind; [apply appends_retrieve_benchmarks | intros _].
  apply appends_signal_finished.
Qed.

Lemma ends_finished_bind {A B : Type} (m : W A) (k : A -> W B) :
  appends m -> (forall a, ends_finished (k a)) -> ends_finished (bind m k).
Proof.
  intros Hm Hk s b s' E. unfold bind in E.
  destruct (Hm s) as (n1 & E1 & N1).
  destruct (m s) as [[a|] s1]; simpl in *; [|discriminate].
  destruct (Hk a s1 b s' E) as (pre & E2 & N2 & F & R).
  exists (n1 ++ pre). rewrite E2, E1, <- !app_assoc.
  repeat split; try assumption. rewrite in_app_iff. tauto.
Qed.

Lemma ends_finished_tail :
  ends_finished (retrieve_benchmarks ;;; signal_finished).
Proof.
  intros s a s' E. injection E as _ <-. exists []. simpl. auto.
Qed.

Lemma ends_finished_worker_round (ext : Externals) :
  ends_finished (worker_round ext).
Proof.
  unfold worker_round.
  apply ends_finished_bind; [apply appends_load_instance | intros _].
  apply ends_finished_bind; [apply appends_build_model | intros _].
  apply ends_finished_bind; [apply appends_calculate | intros _].
  apply ends_finished_tail.
Qed.

(** ** One pass of a slot *)

Lemma run_slot_export_after_finished (ext : Externals) (s : Slot) :
  export_after_finished ext s.
Proof.
  unfold export_after_finished, run_slot.
  destruct (alive s && wakeup_event (thread s)).
  - set (s0 := {| thread := set_wakeup false (thread s); instance := instance s;
                  alive := alive s; events := events s |}).
    unfold worker_body, bind.
    destruct (appends_worker_round ext s0) as (n1 & E1 & N1).
    pose proof (@ends_finished_worker_round ext s0) as Hfin.
    destruct (worker_round ext s0) as [[u|] s1]; simpl in E1.
    + destruct (Hfin u s1 eq_refl) as (pre & E2 & N2 & F & R).
      exists (pre ++ [EvFinished; EvExport]).
      assert (Ev : events (snd (external EvExport (ext_export ext) s1))
                   = events s ++ pre ++ [EvFinished; EvExport]).
      { unfold external, bind, log. simpl.
        destruct (ext_export ext); simpl; rewrite E2; simpl;
          rewrite <- !app_assoc; reflexivity. }
      assert (Th : thread (snd (external EvExport (ext_export ext) s1)) = thread s1
                   /\ instance (snd (external EvExport (ext_export ext) s1))
                      = instance s1).
      { unfold external, bind, log. simpl. destruct (ext_export ext); auto. }
      destruct (external EvExport (ext_export ext) s1) as [[v|] s2];
        simpl in *; (split; [exact Ev|]); intros _; exists pre;
        unfold slot_report, instance_report in *; simpl;
        destruct Th as [-> ->]; auto.
    + exists n1. simpl. split; [exact E1 | contradiction].
  - exists []. rewrite app_nil_r. split; [reflexivity | intros []].
Qed.

(** The outcome of the export does not reach the thread data. *)
Lemma run_slot_export_thread (o : outcome unit) (ext : Externals) (s : Slot) :
  thread (run_slot (with_export o ext) s) = thread (run_slot ext s).
Proof.
  unfold run_slot. destruct (alive s && wakeup_event (thread s)); [|reflexivity].
  unfold worker_body, bind.
  change (worker_round (with_export o ext)) with (worker_round ext).
  destruct (worker_round ext _) as [[u|] s1]; [|reflexivity].
  unfold external, bind, log. simpl.
  destruct o; destruct (ext_export ext); reflexivity.
Qed.

Lemma run_workers_export_threads (o : outcome unit) (exts : nat -> Externals)
    (i : nat) (slots : list Slot) :
  map thread (run_workers (fun j => with_export o (exts j)) i slots)
  = map thread (run_workers exts i slots).
Proof.
  revert i. induction slots as [|s ss IH]; intros i; simpl; [reflexivity|].
  rewrite run_slot_export_thread, IH. reflexivity.
Qed.

Lemma wait_workers_threads (n : nat) (l1 l2 : list Slot) :
  map thread l1 = map thread l2 ->
  option_map (map thread) (wait_workers n l1)
  = option_map (map thread) (wait_workers n l2).
Proof.
  revert l1 l2. induction n as [|n IH]; intros l1 l2 E; simpl.
  - rewrite E. reflexivity.
  - destruct l1 as [|s1 t1]; destruct l2 as [|s2 t2]; simpl in E;
      try discriminate; [reflexivity|].
    injection E as Es Et. rewrite Es.
    destruct (finished_event (thread s2)); [|reflexivity].
    specialize (IH t1 t2 Et).
    destruct (wait_workers n t1); destruct (wait_workers n t2);
      simpl in *; try discriminate; [|reflexivity].
    injection IH as ->. rewrite ?Es. reflexivity.
Qed.

Lemma round_report_threads (n : nat) (r1 r2 : option CalculatorThreadManager) :
  option_map (fun mgr => map thread (worker_threads mgr)) r1
  = option_map (fun mgr => map thread (worker_threads mgr)) r2 ->
  round_report n r1 = round_report n r2.
Proof.
  unfold round_report. destruct r1 as [m1|]; destruct r2 as [m2|]; simpl;
    try discriminate; [|reflexivity].
  intros E. injection E as E. f_equal.
  assert (R : forall l, map slot_report l
                        = map (fun t => (status t, status_extended t,
                                         build_time t, calculation_time t))
                              (map thread l)).
  { intros l. rewrite map_map. reflexivity. }
  rewrite !R, <- !firstn_map, E. reflexivity.
Qed.

(** C9: whether the export of a slot returns or raises, the round reports
    the same status, condition, build time and calculation time for every
    segment and completes in the same cases; and in the log of a slot an
    export comes right after the completion signal, once the event is set
    and the thread data hold the final values of the instance. *)
Theorem export_failure_does_not_fail_round
    (exts : nat -> Externals) (models : list Model)
    (mgr : CalculatorThreadManager) (o : outcome unit) :
  round_report (List.length models)
    (manager_calculate (fun i => with_export o (exts i)) models mgr)
  = round_report (List.length models) (manager_calculate exts models mgr)
  /\ forall i s, export_after_finished (with_export o (exts i)) s.
Proof.
  split; [|intros i s; apply run_slot_export_after_finished].
  apply round_report_threads. unfold manager_calculate.
  pose proof (wait_workers_threads (List.length models)
                (run_workers (fun i => with_export o (exts i)) 0
                   (start_workers models (spawn_workers mgr models)))
                (run_workers exts 0
                   (start_workers models (spawn_workers mgr models)))
                (run_workers_export_threads o exts 0 _)) as E.
  destruct (wait_workers _ (run_workers (fun i => with_export o (exts i)) 0 _));
    destruct (wait_workers _ (run_workers exts 0 _)); simpl in *;
    try discriminate; [|reflexivity].
  injection E as ->. reflexivity.
Qed.

(** A slot whose export raised has ended: it never signals again, and the
    next round that needs it does not return. *)
Lemma export_failure_ends_the_slot :
  let failing := with_export Raises quiet_externals in
  match manager_calculate (fun _ => failing) [small_grid true false]
          (new_manager Lpf) with
  | Some mgr =>
      map alive (firstn 1 (worker_threads mgr)) = [false]
      /\ round_report 1 (Some mgr) = Some [("ok", "succes", 1, 2)]
      /\ manager_calculate (fun _ => quiet_externals) [small_grid true false] mgr
         = None
  | None => False
  end.
Proof. vm_compute. repeat split. Qed.

(** ** The definitional failure *)

(** Under [lopf] and [pf], once the network is built, the failure is
    reported, with no call of the solver, exactly for the segments with no
    generator and no storage unit. *)
Lemma no_generation_lopf_pf (method : Method) (ext : Externals) (m : Model) :
  method = Lopf \/ method = Pf -> ext_build ext = Returns tt ->
  (reports_no_generation (run_slot ext (started_slot method m))
   <-> generators m = [] /\ storage_units m = []).
Proof.
  intros Hm Hb. unfold reports_no_generation.
  destruct m as [bs ls ts gs lds sus].
  destruct ext as [lopf lpf pf ex tb tc bd rt op]. simpl in Hb. subst bd.
  destruct Hm as [-> | ->];
    destruct gs as [|g gs]; destruct sus as [|u sus];
    try (destruct lopf as [[st cond]|]); try (destruct lpf as [[]|]);
    try (destruct pf as [[]|]); destruct ex as [[]|]; destruct rt as [[]|];
    cbv -[String.eqb In];
    try (destruct (String.eqb st "ok"); destruct (String.eqb cond "optimal"));
    cbv -[In];
    (split; [intros (H1 & H2 & H3) | intros [H1 H2]]);
    try discriminate;
    try (exfalso; apply H3; simpl; tauto);
    try (repeat split; try reflexivity; intros H; simpl in H;
         repeat destruct H as [H|H]; discriminate || contradiction).
Qed.

(** C6 (the failing input): under [lpf] a segment with a storage unit and
    no generator is reported as "no generation" with no call of the solver. *)
Theorem lpf_ignores_storage_units :
  reports_no_generation (run_slot quiet_externals (started_slot Lpf storage_only_segment))
  /\ List.length (storage_units storage_only_segment) = 1%nat
  /\ ~ reports_no_generation
         (run_slot quiet_externals (started_slot Pf storage_only_segment)).
Proof.
  unfold reports_no_generation. cbn. repeat split.
  - intros H. repeat destruct H as [H|H]; discriminate || contradiction.
  - intros (H & _). discriminate H.
Qed.

(** ** A solver that raises *)

(** Under [lpf] and [pf], once the network is built, the exception of the
    solver is caught: the slot reports warning/failed and signals
    completion. *)
Lemma solver_exception_caught_lpf_pf (method : Method) (ext : Externals) (m : Model) :
  method = Lpf \/ method = Pf -> generators m <> [] ->
  ext_build ext = Returns tt -> ext_lpf ext = Raises ->
  let s := run_slot ext (started_slot method m) in
  status (thread s) = "warning" /\ status_extended (thread s) = "failed"
  /\ finished_event (thread s) = true.
Proof.
  intros Hm Hg Hb Hlpf. destruct m as [bs ls ts gs lds sus].
  destruct ext as [lopf lpf pf ex tb tc bd rt op]. simpl in Hlpf, Hg, Hb.
  subst lpf bd.
  destruct gs as [|g gs]; [congruence|].
  destruct Hm as [-> | ->]; destruct ex as [[]|]; cbn; auto.
Qed.

(** C3 (the failing input): under [lopf] the exception of the solver leaves
    [calculate] and the worker loop: the thread ends, its completion event
    is never set, no warning/failed status is written, and the round that
    waits for the slot does not return. *)
Theorem lopf_solver_exception_escapes :
  let s := run_slot raising_externals (started_slot Lopf (small_grid true false)) in
  alive s = false
  /\ finished_event (thread s) = false
  /\ status (thread s) = "ok" /\ status_extended (thread s) = "booting"
  /\ manager_calculate (fun _ => raising_externals) [small_grid true false]
       (new_manager Lopf) = None
  /\ round_report 1
       (manager_calculate (fun _ => raising_externals) [small_grid true false]
          (new_manager Lpf))
     = Some [("warning", "failed", 1, 2)].
Proof. vm_compute. repeat split. Qed.

(* ================================================================== *)
(** * Selective recalculation *)
(* ================================================================== *)

Lemma compare_model_refl (m : Model) :
  compare_model_components m m && compare_model_structure m m = true.
Proof.
  apply andb_true_iff. split.
  - apply compare_model_components_keys. auto.
  - apply compare_model_structure_keys. auto.
Qed.

Lemma needs_calculation_fold_false (previous : list Model) (model : Model) :
  fold_left
    (fun add existing_model =>
       if compare_model_components model existing_model
          && compare_model_structure model existing_model
       then false else add)
    previous false = false.
Proof.
  induction previous as [|e tl IH]; simpl; [reflexivity|].
  destruct (_ && _); exact IH.
Qed.

(** A segment with an equal predecessor in the previous list is skipped. *)
Lemma needs_calculation_match (previous : list Model) (model existing : Model) :
  In existing previous ->
  compare_model_components model existing
  && compare_model_structure model existing = true ->
  needs_calculation previous model = false.
Proof.
  intros Hin Hcmp. unfold needs_calculation.
  assert (G : forall add,
             fold_left
               (fun add existing_model =>
                  if compare_model_components model existing_model
                     && compare_model_structure model existing_model
                  then false else add)
               previous add = false).
  { induction previous as [|e tl IH]; intros add; simpl; [contradiction|].
    destruct Hin as [->|Hin].
    - rewrite Hcmp. apply needs_calculation_fold_false.
    - apply IH. exact Hin. }
  apply G.
Qed.

Lemma filter_none {A : Type} (f : A -> bool) (l : list A) :
  (forall x, In x l -> f x = false) -> filter f l = [].
Proof.
  induction l as [|a tl IH]; intros H; simpl; [reflexivity|].
  rewrite (H a (or_introl eq_refl)). apply IH. intros x Hx. apply H. right. exact Hx.
Qed.

(** When no flag was set at the first of two calls on the same model, the
    second call dispatches nothing. *)
Lemma selective_skip_when_clean (p p1 : ModelProcessor) (m m1 : Model)
    (d1 : list Model) :
  reset_changed_components m = m ->
  table_selective_calculate p m = Some (p1, d1, m1) ->
  exists p2, table_selective_calculate p1 m1 = Some (p2, [], m1).
Proof.
  intros Hclean. unfold table_selective_calculate, selective_calculate. simpl.
  destruct (segment_model m) as [segs|] eqn:E; [|discriminate].
  intros H. injection H as <- _ <-. simpl.
  rewrite Hclean, E. simpl. rewrite Hclean.
  rewrite filter_none.
  - eexists. reflexivity.
  - intros x Hx. apply needs_calculation_match with x; [exact Hx|].
    apply compare_model_refl.
Qed.

(** C2 (the failing input): a generator is flagged as changed at the first
    call.  The first call dispatches the segment and caches a copy made
    before the flags are cleared; the second call, with no flag set in
    between and the same topology, finds the cached generator still flagged,
    so the segment is dispatched again.  Only the third call dispatches
    nothing. *)
Theorem selective_skip_fails_after_a_change :
  exists p1 d1 m1 p2 d2 m2 p3 d3 m3,
    table_selective_calculate new_model_processor (small_grid true true)
    = Some (p1, d1, m1)
    /\ m1 = reset_changed_components (small_grid true true)
    /\ option_map (map (fun s => map echanged (generators s)))
         (previous_segmented_model_list p1) = Some [[true]]
    /\ table_selective_calculate p1 m1 = Some (p2, d2, m2)
    /\ m2 = m1
    /\ List.length d2 = 1%nat
    /\ table_selective_calculate p2 m2 = Some (p3, d3, m3)
    /\ d3 = [].
Proof.
  do 9 eexists. repeat split.
Qed.

(* ================================================================== *)
(** * More on the partition *)
(* ================================================================== *)

Lemma kept_refl (l : list BusIndex) : assigned_kept l l.
Proof. intros x Hx _. exact Hx. Qed.

Lemma kept_trans (a b c : list BusIndex) :
  assigned_kept a b -> assigned_kept b c -> assigned_kept a c.
Proof. intros H1 H2 x Hx Hs. apply H2; [apply H1|]; assumption. Qed.

Lemma kept_assign (k : Z) (pre post : list BusIndex) (y : BusIndex) :
  segment y = -1 ->
  assigned_kept (pre ++ y :: post) (pre ++ set_segment k y :: post).
Proof.
  intros Hy x Hx Hs. apply in_mid in Hx as [<-|Hx]; [congruence|].
  apply in_mid. auto.
Qed.

Lemma mark_other_kept (t : string) (k : Z) (l : list BusIndex) :
  assigned_kept l (fst (mark_other t k l)).
Proof.
  destruct (mark_other t k l) as [l' [|]] eqn:E; simpl.
  - apply mark_other_true in E as (pre & y & post & -> & -> & _ & Hy).
    apply kept_assign, Hy.
  - apply mark_other_false in E as [-> _]. apply kept_refl.
Qed.

Lemma claim_first_kept (k : Z) (l : list BusIndex) :
  assigned_kept l (claim_first k l).
Proof.
  destruct (claim_first_cases k l) as [[_ ->]|(pre & y & post & -> & -> & Hy)].
  - apply kept_refl.
  - apply kept_assign, Hy.
Qed.

Lemma fold_kept {X : Type} (f : list BusIndex * bool -> X -> list BusIndex * bool)
    (xs : list X) (st : list BusIndex * bool) :
  (forall s x, assigned_kept (fst s) (fst (f s x))) ->
  assigned_kept (fst st) (fst (fold_left f xs st)).
Proof.
  intros Hf. revert st. induction xs as [|x xs IH]; intros st; simpl.
  - apply kept_refl.
  - eapply kept_trans; [apply Hf | apply IH].
Qed.

Lemma visit_connection_kept (k : Z) (nm : string) (st : list BusIndex * bool)
    (c : Connection) :
  assigned_kept (fst st) (fst (visit_connection k nm st c)).
Proof.
  unfold visit_connection.
  set (st1 := if String.eqb (conn_bus0 c) nm
              then let (l', a) := mark_other (conn_bus1 c) k (fst st) in (l', snd st || a)
              else st).
  assert (K1 : assigned_kept (fst st) (fst st1)).
  { subst st1. destruct (String.eqb (conn_bus0 c) nm); [|apply kept_refl].
    pose proof (mark_other_kept (conn_bus1 c) k (fst st)) as K.
    destruct (mark_other (conn_bus1 c) k (fst st)). exact K. }
  apply kept_trans with (fst st1); [exact K1|].
  destruct (String.eqb (conn_bus1 c) nm); [|apply kept_refl].
  pose proof (mark_other_kept (conn_bus0 c) k (fst st1)) as K.
  destruct (mark_other (conn_bus0 c) k (fst st1)). exact K.
Qed.

Lemma sweep_kept (conns : list Connection) (k : Z) (l : list BusIndex) :
  assigned_kept l (fst (sweep conns k l)).
Proof.
  unfold sweep. change l with (fst (l, false)) at 1. apply fold_kept.
  intros s p. unfold sweep_step.
  destruct (nth_error (fst s) p) as [b|]; [|apply kept_refl].
  destruct (segment b =? k); [|apply kept_refl].
  apply fold_kept. intros s' c. apply visit_connection_kept.
Qed.

Lemma flood_fill_kept (fuel : nat) (conns : list Connection) (k : Z)
    (l l' : list BusIndex) :
  flood_fill fuel conns k l = Some l' -> assigned_kept l l'.
Proof.
  revert l. induction fuel as [|fuel IH]; intros l E; simpl in E; [discriminate|].
  pose proof (sweep_kept conns k l) as K.
  destruct (sweep conns k l) as [l1 [|]]; simpl in K.
  - eapply kept_trans; [exact K | apply IH, E].
  - injection E as <-. exact K.
Qed.

(** Every id below the last one was given to some entry. *)
Lemma segment_buses_ids (fuel : nat) (conns : list Connection) (k0 : Z)
    (l l' : list BusIndex) (kf : Z) :
  -1 <= k0 ->
  segment_buses fuel conns k0 l = Some (l', kf) ->
  k0 < kf /\ assigned_kept l l'
  /\ forall i, k0 < i < kf -> exists x, In x l' /\ segment x = i.
Proof.
  revert k0 l. induction fuel as [|fuel IH]; intros k0 l Hk0 E; [discriminate|].
  cbn [segment_buses] in E. cbv zeta in E.
  destruct (flood_fill (S (List.length (claim_first (k0 + 1) l))) conns (k0 + 1)
              (claim_first (k0 + 1) l)) as [l2|] eqn:E2; [|discriminate].
  pose proof (kept_trans (claim_first_kept (k0 + 1) l) (flood_fill_kept _ _ _ _ E2))
    as K2.
  destruct (all_allocated (claim_first (k0 + 1) l)) eqn:Ea.
  - injection E as <- <-. split; [lia|]. split; [exact K2|]. intros i Hi. lia.
  - destruct (IH (k0 + 1) l2) as (Hlt & K & Hids); [lia | exact E|].
    split; [lia|]. split; [eapply kept_trans; eassumption|].
    intros i Hi. destruct (Z.eq_dec i (k0 + 1)) as [->|Hne].
    + destruct (claim_first_cases (k0 + 1) l)
        as [[Hall Hsame]|(pre & y & post & Hl & Hc & Hy)].
      * rewrite Hsame in Ea. congruence.
      * exists (set_segment (k0 + 1) y). split; [|reflexivity].
        apply K; [|simpl; lia].
        apply (flood_fill_kept _ _ _ _ E2); [|simpl; lia].
        rewrite Hc. apply in_elt.
    + apply Hids. lia.
Qed.

(** What is known of a result of [segment_model]. *)
Lemma segment_model_facts (m : Model) (segs : list Model) :
  segment_model m = Some segs ->
  exists bil kf,
    segs = map (segment_of m bil) (seq 0 (Z.to_nat kf))
    /\ flood_inv (connection_list m)
         (shape (init_bus_index_list (buses m))) (kf + 1) bil
    /\ (forall x, In x bil -> 0 <= segment x <= kf)
    /\ 0 <= kf
    /\ (forall x y, In x bil -> In y bil ->
                    segment x = kf -> segment y = kf -> x = y)
    /\ (forall i, 0 <= i < kf -> exists x, In x bil /\ segment x = i).
Proof.
  intros E. unfold segment_model in E.
  pose proof (unassigned_le_length (init_bus_index_list (buses m))) as Hlen.
  destruct (@segment_buses_spec (connection_list m)
              (shape (init_bus_index_list (buses m)))
              (S (List.length (init_bus_index_list (buses m)))) (-1)
              (init_bus_index_list (buses m)))
    as (bil & kf & E' & Hinv & Hrange & Hkf & Huniq);
    [lia | lia | apply init_round_start|].
  destruct (@segment_buses_ids _ _ (-1) _ bil kf (Z.le_refl _) E') as (_ & _ & Hids).
  rewrite E' in E. injection E as <-.
  exists bil, kf. rewrite compile_models_closed_form.
  split; [reflexivity|]. split; [exact Hinv|]. split; [exact Hrange|].
  split; [exact Hkf|]. split; [exact Huniq|].
  intros i Hi. apply Hids. lia.
Qed.

Lemma shape_length (l : list BusIndex) : List.length (shape l) = List.length l.
Proof. unfold shape. apply length_map. Qed.

(** X1: the loops of [segment_model] end for every input, and there are
    never more segments than buses. *)
Theorem segment_model_returns (m : Model) :
  exists segs, segment_model m = Some segs
               /\ (List.length segs <= List.length (buses m))%nat.
Proof.
  destruct (segment_model_closed_form m) as (bil & kf & E & _).
  exists (map (segment_of m bil) (seq 0 (Z.to_nat kf))). split; [exact E|].
  destruct (@segment_model_facts _ _ E) as (bil' & kf' & Eq & Hinv & _ & _ & _ & Hids).
  rewrite Eq, length_map, length_seq.
  assert (Hlen : List.length bil' = List.length (buses m)).
  { rewrite <- shape_length, (inv_shape Hinv), shape_length.
    apply init_from_length. }
  assert (Hle : (List.length (map Z.of_nat (seq 0 (Z.to_nat kf')))
                 <= List.length (map segment bil'))%nat).
  { apply NoDup_incl_length.
    - apply NoDup_map_NoDup_ForallPairs; [|apply seq_NoDup].
      intros a b _ _. apply Nat2Z.inj.
    - intros z Hz. apply in_map_iff in Hz as (i & <- & Hi). apply in_seq in Hi.
      destruct (Hids (Z.of_nat i)) as (x & Hx & Hs); [lia|].
      rewrite <- Hs. apply in_map. exact Hx. }
  rewrite !length_map, length_seq in Hle. lia.
Qed.

(** X2: no returned segment is empty: each one holds at least one bus. *)
Theorem segments_are_not_empty (m : Model) (segs : list Model) (s : Model) :
  segment_model m = Some segs -> In s segs -> buses s <> [].
Proof.
  intros E Hs.
  destruct (@segment_model_facts _ _ E) as (bil & kf & -> & Hinv & _ & _ & _ & Hids).
  apply in_map_iff in Hs as (i & <- & Hi). apply in_seq in Hi.
  destruct (Hids (Z.of_nat i)) as (x & Hx & Hseg); [lia|].
  destruct (@entry_bus _ _ (inv_shape Hinv) _ Hx) as (b & Hb & _).
  assert (Hin : In b (buses (segment_of m bil i))).
  { apply segment_of_buses. exists x. auto. }
  intros Hnil. rewrite Hnil in Hin. contradiction.
Qed.

Lemma segments_are_not_empty_witness :
  segment_model (test_model false) = Some (segments_of (test_model false))
  /\ forall s, In s (segments_of (test_model false)) -> buses s <> [].
Proof.
  split; [vm_compute; reflexivity|].
  intros s Hs.
  apply (@segments_are_not_empty (test_model false) (segments_of (test_model false)) s);
    [vm_compute; reflexivity | exact Hs].
Defined.

(** X3: with unique bus names, a bus name occurs in at most one of the
    returned segments. *)
Theorem segments_are_disjoint (m : Model) (segs : list Model)
    (i j : nat) (s1 s2 : Model) (b1 b2 : Bus) :
  segment_model m = Some segs ->
  NoDup (map ename (buses m)) ->
  nth_error segs i = Some s1 -> nth_error segs j = Some s2 ->
  In b1 (buses s1) -> In b2 (buses s2) -> ename b1 = ename b2 ->
  i = j.
Proof.
  intros E Hnd Hi Hj H1 H2 Hn.
  destruct (@segment_model_facts _ _ E) as (bil & kf & -> & Hinv & _).
  pose proof (inv_shape Hinv) as Hshape.
  assert (Hseg : forall k s, nth_error (map (segment_of m bil) (seq 0 (Z.to_nat kf))) k
                             = Some s -> s = segment_of m bil k).
  { intros k s Hk. rewrite nth_error_map in Hk.
    destruct (nth_error (seq 0 (Z.to_nat kf)) k) as [k'|] eqn:Ek; [|discriminate].
    injection Hk as <-. f_equal.
    assert (Hlt : (k < List.length (seq 0 (Z.to_nat kf)))%nat)
      by (apply nth_error_Some; congruence).
    rewrite length_seq in Hlt.
    rewrite (nth_error_nth' _ 0%nat) in Ek by (rewrite length_seq; exact Hlt).
    rewrite seq_nth in Ek by exact Hlt. injection Ek as <-. reflexivity. }
  rewrite (Hseg _ _ Hi) in H1. rewrite (Hseg _ _ Hj) in H2.
  apply segment_of_buses in H1 as (x1 & Hx1 & S1 & N1).
  apply segment_of_buses in H2 as (x2 & Hx2 & S2 & N2).
  destruct (@entry_bus _ _ Hshape _ Hx1) as (b1' & N1' & Hn1).
  destruct (@entry_bus _ _ Hshape _ Hx2) as (b2' & N2' & Hn2).
  assert (b1' = b1) by congruence. assert (b2' = b2) by congruence. subst.
  assert (x1 = x2).
  { apply (NoDup_map_In_eq bus_name bil); try assumption.
    - rewrite (@entry_names _ _ Hshape). exact Hnd.
    - congruence. }
  subst x2. lia.
Qed.

Lemma segments_are_disjoint_witness :
  exists s0 s1,
    nth_error (segments_of (test_model false)) 0 = Some s0
    /\ nth_error (segments_of (test_model false)) 1 = Some s1
    /\ In (bus "bus_5") (buses s1)
    /\ ~ In (bus "bus_5") (buses s0).
Proof.
  assert (E : exists s0 s1,
             nth_error (segments_of (test_model false)) 0 = Some s0
             /\ nth_error (segments_of (test_model false)) 1 = Some s1
             /\ In (bus "bus_5") (buses s1)).
  { do 2 eexists. split; [vm_compute; reflexivity|].
    split; [vm_compute; reflexivity|]. simpl. tauto. }
  destruct E as (s0 & s1 & E0 & E1 & H1).
  exists s0, s1. split; [exact E0|]. split; [exact E1|]. split; [exact H1|].
  intros H0.
  assert (C : 0%nat = 1%nat).
  { apply (@segments_are_disjoint (test_model false)
             (segments_of (test_model false)) 0 1 s0 s1
             (bus "bus_5") (bus "bus_5")); try assumption.
    - vm_compute. reflexivity.
    - simpl. repeat constructor; simpl; intuition discriminate.
    - reflexivity. }
  discriminate C.
Defined.

(** X4: at most one bus of the input is missing from the returned segments. *)
Theorem at_most_one_bus_is_missing (m : Model) (segs : list Model) (b1 b2 : Bus) :
  segment_model m = Some segs ->
  In b1 (buses m) -> In b2 (buses m) ->
  (forall s, In s segs -> ~ In b1 (buses s)) ->
  (forall s, In s segs -> ~ In b2 (buses s)) ->
  b1 = b2.
Proof.
  intros E H1 H2 M1 M2.
  destruct (@segment_model_facts _ _ E) as (bil & kf & -> & Hinv & Hrange & Hkf & Huniq & _).
  pose proof (inv_shape Hinv) as Hshape.
  assert (Hlast : forall b, In b (buses m) ->
            (forall s, In s (map (segment_of m bil) (seq 0 (Z.to_nat kf))) ->
                       ~ In b (buses s)) ->
            exists x, In x bil /\ segment x = kf
                      /\ nth_error (buses m) (index x) = Some b).
  { intros b Hb Hmiss.
    destruct (@bus_entry _ _ Hshape _ Hb) as (x & Hx & Nx & _).
    exists x. split; [exact Hx|]. split; [|exact Nx].
    pose proof (Hrange x Hx) as R.
    destruct (Z.eq_dec (segment x) kf) as [Ek|Nk]; [exact Ek|]. exfalso.
    apply (Hmiss (segment_of m bil (Z.to_nat (segment x)))).
    - apply in_map, in_seq. lia.
    - apply segment_of_buses. exists x. repeat split; try assumption. lia. }
  destruct (Hlast b1 H1 M1) as (x1 & Hx1 & S1 & N1).
  destruct (Hlast b2 H2 M2) as (x2 & Hx2 & S2 & N2).
  assert (x1 = x2) by (apply Huniq; assumption). subst x2. congruence.
Qed.

Lemma at_most_one_bus_is_missing_witness :
  In (bus "bus_1") (buses (two_bus_model "bus_0" "bus_1"))
  /\ (forall s, In s (segments_of (two_bus_model "bus_0" "bus_1")) ->
                ~ In (bus "bus_1") (buses s))
  /\ bus "bus_1" = bus "bus_1".
Proof.
  assert (M : forall s, In s (segments_of (two_bus_model "bus_0" "bus_1")) ->
                        ~ In (bus "bus_1") (buses s)).
  { intros s [<-|[]] [H|[]]. discriminate H. }
  split; [simpl; auto|]. split; [exact M|].
  apply (@at_most_one_bus_is_missing (two_bus_model "bus_0" "bus_1")
           (segments_of (two_bus_model "bus_0" "bus_1")));
    [vm_compute; reflexivity | simpl; auto | simpl; auto | exact M | exact M].
Defined.

(** X5: a bus joined to another bus by an active line or transformer is
    never missing: both buses are in one returned segment. *)
Theorem joined_buses_are_kept (m : Model) (segs : list Model) (b1 b2 : Bus) :
  segment_model m = Some segs ->
  In b1 (buses m) -> In b2 (buses m) -> b1 <> b2 ->
  edge m (ename b1) (ename b2) ->
  same_segment segs b1 b2.
Proof.
  intros E H1 H2 Hneq Hedge.
  destruct (@segment_model_facts _ _ E) as (bil & kf & -> & Hinv & Hrange & Hkf & Huniq & _).
  pose proof (inv_shape Hinv) as Hshape.
  destruct (@bus_entry _ _ Hshape _ H1) as (x1 & Hx1 & N1 & Hn1).
  destruct (@bus_entry _ _ Hshape _ H2) as (x2 & Hx2 & N2 & Hn2).
  apply edge_adjacent in Hedge as (_ & _ & L).
  pose proof (Hrange x1 Hx1) as R1.
  assert (Eseg : segment x2 = segment x1).
  { apply (inv_closed Hinv); try assumption; [congruence | lia | lia]. }
  destruct (Z.eq_dec (segment x1) kf) as [Ek|Nk].
  - exfalso. apply Hneq.
    assert (x1 = x2) by (apply Huniq; congruence). subst x2. congruence.
  - exists (segment_of m bil (Z.to_nat (segment x1))). split.
    + apply in_map, in_seq. lia.
    + split; apply segment_of_buses; [exists x1 | exists x2];
        repeat split; try assumption; lia.
Qed.

Lemma joined_buses_are_kept_witness :
  same_segment (segments_of (small_grid true false)) (bus "bus_0") (bus "bus_1").
Proof.
  apply (@joined_buses_are_kept (small_grid true false)).
  - vm_compute. reflexivity.
  - simpl. auto.
  - simpl. auto.
  - discriminate.
  - split; [simpl; auto|]. split; [simpl; auto|].
    left. exists (line "line_0" "bus_0" "bus_1" true). simpl. auto.
Defined.

(** X6: an edge never leaves its segment: a line or transformer of a
    returned segment has the bus named by its [bus0] in that segment, and
    any bus of the input named by its [bus1] as well. *)
Theorem segment_edges_stay_inside (m : Model) (segs : list Model) (s : Model) :
  segment_model m = Some segs -> In s segs ->
  (forall l, In l (lines s) ->
     (exists b, In b (buses s) /\ ename b = ebus0 l)
     /\ forall b', In b' (buses m) -> ename b' = line_bus1 l -> In b' (buses s))
  /\ (forall t, In t (transformers s) ->
        (exists b, In b (buses s) /\ ename b = ebus0 t)
        /\ forall b', In b' (buses m) -> ename b' = transformer_bus1 t ->
                      In b' (buses s)).
Proof.
  intros E Hs.
  destruct (@segment_model_facts _ _ E) as (bil & kf & -> & Hinv & Hrange & _).
  pose proof (inv_shape Hinv) as Hshape.
  apply in_map_iff in Hs as (i & <- & _).
  assert (Hend : forall (c : Connection) (x : BusIndex),
            In c (connection_list m) -> In x bil -> segment x = Z.of_nat i ->
            conn_bus0 c = bus_name x ->
            (exists b, In b (buses (segment_of m bil i)) /\ ename b = conn_bus0 c)
            /\ forall b', In b' (buses m) -> ename b' = conn_bus1 c ->
                          In b' (buses (segment_of m bil i))).
  { intros c x Hc Hx Hseg H0. split.
    - destruct (@entry_bus _ _ Hshape _ Hx) as (b & Hb & Hn).
      exists b. split; [|congruence]. apply segment_of_buses. exists x. auto.
    - intros b' Hb' Hn'.
      destruct (@bus_entry _ _ Hshape _ Hb') as (x' & Hx' & Nx' & Hnx').
      apply segment_of_buses. exists x'. split; [exact Hx'|]. split; [|exact Nx'].
      rewrite <- Hseg. pose proof (Hrange x Hx) as R.
      apply (inv_closed Hinv); try assumption; [|lia|lia].
      exists c. split; [exact Hc|]. left. split; congruence. }
  split.
  - intros l Hl. apply segment_of_attached in Hl as (x & Hx & Hseg & Hl).
    apply attached_active_In in Hl as (Hl & H0 & Hact).
    apply (Hend (ConnLine l) x); try assumption.
    unfold connection_list. apply in_app_iff. left. apply in_map, filter_In. auto.
  - intros t Ht. apply segment_of_attached in Ht as (x & Hx & Hseg & Ht).
    apply attached_active_In in Ht as (Ht & H0 & Hact).
    apply (Hend (ConnTransformer t) x); try assumption.
    unfold connection_list. apply in_app_iff. right. apply in_map, filter_In. auto.
Qed.

Lemma segment_edges_stay_inside_witness :
  segment_model (test_model false) = Some (segments_of (test_model false))
  /\ forall s, In s (segments_of (test_model false)) ->
       forall l, In l (lines s) ->
         forall b', In b' (buses (test_model false)) -> ename b' = line_bus1 l ->
                    In b' (buses s).
Proof.
  split; [vm_compute; reflexivity|].
  intros s Hs l Hl.
  apply (@segment_edges_stay_inside (test_model false)
           (segments_of (test_model false)) s);
    [vm_compute; reflexivity | exact Hs | exact Hl].
Defined.

Lemma closed_form_active_follows {A : Type} `{Entity A} (m : Model)
    (bil : list BusIndex) (n : nat) (kind : Model -> list A) :
  shape bil = shape (init_bus_index_list (buses m)) ->
  (forall i, kind (segment_of m bil i)
             = flat_map (fun bi => attached_active (bus_name bi) (kind m))
                 (entries_of i bil)) ->
  active_follows_bus m (map (segment_of m bil) (seq 0 n)) kind.
Proof.
  intros Hshape Hkind s b x Hs Hb Hx Hact Hn.
  apply in_map_iff in Hs as (i & <- & _).
  apply segment_of_buses in Hb as (bi & Hbi & Hseg & Hb).
  destruct (@entry_bus _ _ Hshape _ Hbi) as (b' & Hb' & Hn').
  assert (b' = b) by congruence. subst b'.
  rewrite Hkind. apply segment_of_attached. exists bi.
  repeat split; try assumption. apply attached_active_In.
  repeat split; try assumption. congruence.
Qed.

(** X7: an active line or transformer whose [bus0] names a bus of a
    returned segment is in that segment. *)
Theorem active_edges_follow_bus0 (m : Model) (segs : list Model) :
  segment_model m = Some segs ->
  active_follows_bus m segs lines /\ active_follows_bus m segs transformers.
Proof.
  intros E.
  destruct (@segment_model_facts _ _ E) as (bil & kf & -> & Hinv & _).
  split; apply closed_form_active_follows;
    solve [exact (inv_shape Hinv) | reflexivity].
Qed.

Lemma active_edges_follow_bus0_witness :
  active_follows_bus (test_model false) (segments_of (test_model false)) lines
  /\ active_follows_bus (test_model false) (segments_of (test_model false))
       transformers.
Proof.
  apply (@active_edges_follow_bus0 (test_model false)). vm_compute. reflexivity.
Defined.

(* ================================================================== *)
(** * More on selective recalculation *)
(* ================================================================== *)

Lemma needs_calculation_no_match (previous : list Model) (model : Model) :
  (forall ex, In ex previous -> same_as_cached model ex = false) ->
  needs_calculation previous model = true.
Proof.
  intros H. unfold needs_calculation.
  assert (G : forall add,
             fold_left
               (fun add existing_model =>
                  if compare_model_components model existing_model
                     && compare_model_structure model existing_model
                  then false else add)
               previous add = add).
  { induction previous as [|e tl IH]; intros add; simpl; [reflexivity|].
    pose proof (H e (or_introl eq_refl)) as He. unfold same_as_cached in He.
    rewrite He. apply IH. intros ex Hex. apply H. right. exact Hex. }
  apply G.
Qed.

(** X8: a new segment is handed to the workers exactly when no cached
    segment is equal to it under both comparison predicates. *)
Theorem needs_calculation_iff (previous : list Model) (model : Model) :
  needs_calculation previous model = true
  <-> forall ex, In ex previous -> same_as_cached model ex = false.
Proof.
  split.
  - intros Hneed ex Hex. destruct (same_as_cached model ex) eqn:E; [|reflexivity].
    rewrite (needs_calculation_match previous model ex Hex E) in Hneed.
    discriminate.
  - apply needs_calculation_no_match.
Qed.

Lemma compare_sym (a b : Model) :
  same_as_cached a b = true -> same_as_cached b a = true.
Proof.
  unfold same_as_cached. rewrite !andb_true_iff.
  rewrite !compare_model_components_keys, !compare_model_structure_keys.
  intuition congruence.
Qed.

Lemma compare_trans (a b c : Model) :
  same_as_cached a b = true -> same_as_cached b c = true ->
  same_as_cached a c = true.
Proof.
  unfold same_as_cached. rewrite !andb_true_iff.
  rewrite !compare_model_components_keys, !compare_model_structure_keys.
  intuition congruence.
Qed.

(** X9: the test of a new segment against a cached one is an equivalence
    relation on models. *)
Theorem same_as_cached_equivalence :
  (forall a, same_as_cached a a = true)
  /\ (forall a b, same_as_cached a b = true -> same_as_cached b a = true)
  /\ (forall a b c, same_as_cached a b = true -> same_as_cached b c = true ->
                    same_as_cached a c = true).
Proof.
  split; [exact compare_model_refl|]. split; [exact compare_sym | exact compare_trans].
Qed.

Lemma key_flag {A : Type} `{Entity A} (x : A) (l1 l2 : list A) :
  map key l1 = map key l2 -> In x l1 ->
  exists y, In y l2 /\ echanged y = echanged x.
Proof.
  intros E Hx. apply (in_map key) in Hx. rewrite E in Hx.
  apply in_map_iff in Hx as (y & Hk & Hy). exists y. split; [exact Hy|].
  unfold key in Hk. congruence.
Qed.

(** X10: when the cached segments carry no flag, a new segment holding a
    flagged entity is always handed to the workers. *)
Theorem flagged_segment_is_dispatched (previous : list Model) (model : Model) :
  (forall ex, In ex previous -> flag_free ex) ->
  flagged model ->
  needs_calculation previous model = true.
Proof.
  intros Hfree Hflag. apply needs_calculation_no_match. intros ex Hex.
  destruct (same_as_cached model ex) eqn:E; [exfalso | reflexivity].
  unfold same_as_cached in E. apply andb_true_iff in E as [Ec Es].
  apply compare_model_components_keys in Ec as (Eg & El & Eu & Et).
  apply compare_model_structure_keys in Es as (Eb & Eln).
  destruct (Hfree ex Hex) as (Fb & Fl & Ft & Fg & Fld & Fu).
  destruct Hflag as [(x & Hx & Hc)|[(x & Hx & Hc)|[(x & Hx & Hc)|
                    [(x & Hx & Hc)|[(x & Hx & Hc)|(x & Hx & Hc)]]]]].
  - destruct (key_flag x _ _ Eb Hx) as (y & Hy & Ey). rewrite (Fb y Hy) in Ey. congruence.
  - destruct (key_flag x _ _ Eln Hx) as (y & Hy & Ey). rewrite (Fl y Hy) in Ey. congruence.
  - destruct (key_flag x _ _ Et Hx) as (y & Hy & Ey). rewrite (Ft y Hy) in Ey. congruence.
  - destruct (key_flag x _ _ Eg Hx) as (y & Hy & Ey). rewrite (Fg y Hy) in Ey. congruence.
  - destruct (key_flag x _ _ El Hx) as (y & Hy & Ey). rewrite (Fld y Hy) in Ey. congruence.
  - destruct (key_flag x _ _ Eu Hx) as (y & Hy & Ey). rewrite (Fu y Hy) in Ey. congruence.
Qed.

Lemma flagged_segment_is_dispatched_witness :
  needs_calculation [small_grid true false] (small_grid true true) = true.
Proof.
  apply flagged_segment_is_dispatched.
  - intros ex [<-|[]]. unfold flag_free. simpl.
    repeat split; intros x Hx; repeat destruct Hx as [<-|Hx];
      try reflexivity; contradiction.
  - right. right. right. left.
    exists (generator "gen_0" "bus_0" true true). simpl. auto.
Defined.

Lemma reset_changed_idempotent (m : Model) :
  reset_changed_components (reset_changed_components m)
  = reset_changed_components m.
Proof.
  unfold reset_changed_components. simpl. rewrite !map_map.
  f_equal; apply map_ext; intros x; destruct x; reflexivity.
Qed.

(** X11: a fresh processor hands every segment of its first model to the
    workers. *)
Theorem first_round_dispatches_everything (m : Model) (segs : list Model) :
  segment_model m = Some segs ->
  exists p, selective_calculate (set_input_model m new_model_processor)
            = Some (p, segs)
            /\ previous_segmented_model_list p = Some segs.
Proof.
  intros E. unfold selective_calculate. simpl. rewrite E. simpl.
  assert (F : filter (needs_calculation []) segs = segs).
  { clear. induction segs as [|s tl IH]; simpl; [reflexivity|].
    unfold needs_calculation at 1. simpl. f_equal. exact IH. }
  rewrite F. eexists. split; reflexivity.
Qed.

Lemma first_round_dispatches_everything_witness :
  exists p, selective_calculate
              (set_input_model (test_model false) new_model_processor)
            = Some (p, segments_of (test_model false))
            /\ previous_segmented_model_list p = Some (segments_of (test_model false)).
Proof.
  apply first_round_dispatches_everything. vm_compute. reflexivity.
Defined.

(** X12: when no flag is set at a call of the selective round, the next
    call on the model the round leaves behind hands nothing to the
    workers. *)
Theorem selective_skip_law (p p1 : ModelProcessor) (m m1 : Model) (d1 : list Model) :
  reset_changed_components m = m ->
  table_selective_calculate p m = Some (p1, d1, m1) ->
  exists p2, table_selective_calculate p1 m1 = Some (p2, [], m1).
Proof. apply selective_skip_when_clean. Qed.

Lemma selective_skip_law_witness :
  exists p1 d1 p2,
    table_selective_calculate new_model_processor (small_grid true false)
    = Some (p1, d1, small_grid true false)
    /\ table_selective_calculate p1 (small_grid true false)
       = Some (p2, [], small_grid true false).
Proof.
  assert (E : exists p1 d1,
             table_selective_calculate new_model_processor (small_grid true false)
             = Some (p1, d1, small_grid true false)).
  { do 2 eexists. reflexivity. }
  destruct E as (p1 & d1 & E). exists p1, d1.
  destruct (@selective_skip_law new_model_processor p1 (small_grid true false)
              (small_grid true false) d1 eq_refl E) as (p2 & E2).
  exists p2. split; assumption.
Defined.

(** X13: whatever the flags at the first of three selective rounds with no
    flag set in between, the third round hands nothing to the workers. *)
Theorem third_round_dispatches_nothing
    (p p1 p2 : ModelProcessor) (m m1 m2 : Model) (d1 d2 : list Model) :
  table_selective_calculate p m = Some (p1, d1, m1) ->
  table_selective_calculate p1 m1 = Some (p2, d2, m2) ->
  exists p3, table_selective_calculate p2 m2 = Some (p3, [], m2).
Proof.
  intros E1 E2.
  assert (Hm1 : m1 = reset_changed_components m).
  { unfold table_selective_calculate in E1.
    destruct (selective_calculate (set_input_model m p)) as [[q d]|];
      [|discriminate]. injection E1 as _ _ <-. reflexivity. }
  assert (Hclean : reset_changed_components m1 = m1).
  { rewrite Hm1. apply reset_changed_idempotent. }
  assert (Hm2 : m2 = m1).
  { unfold table_selective_calculate in E2.
    destruct (selective_calculate (set_input_model m1 p1)) as [[q d]|];
      [|discriminate]. injection E2 as _ _ <-. exact Hclean. }
  subst m2. apply (@selective_skip_when_clean p1 p2 m1 m1 d2 Hclean E2).
Qed.

Lemma third_round_dispatches_nothing_witness :
  exists p1 d1 m1 p2 d2 p3,
    table_selective_calculate new_model_processor (small_grid true true)
    = Some (p1, d1, m1)
    /\ table_selective_calculate p1 m1 = Some (p2, d2, m1)
    /\ table_selective_calculate p2 m1 = Some (p3, [], m1).
Proof.
  assert (E12 : exists p1 d1 m1 p2 d2,
             table_selective_calculate new_model_processor (small_grid true true)
             = Some (p1, d1, m1)
             /\ table_selective_calculate p1 m1 = Some (p2, d2, m1)).
  { do 5 eexists. split; reflexivity. }
  destruct E12 as (p1 & d1 & m1 & p2 & d2 & E1 & E2).
  destruct (@third_round_dispatches_nothing _ _ _ _ _ _ _ _ E1 E2) as (p3 & E3).
  exists p1, d1, m1, p2, d2, p3. auto.
Defined.

(** X14: a forced round hands every segment to the workers whatever the
    cache holds, and if no flag was set then, the selective round that
    follows hands nothing to them. *)
Theorem forced_round_then_skip (p p1 : ModelProcessor) (m m1 : Model)
    (d1 : list Model) :
  table_force_calculate p m = Some (p1, d1, m1) ->
  segment_model m = Some d1
  /\ (reset_changed_components m = m ->
      exists p2, table_selective_calculate p1 m1 = Some (p2, [], m1)).
Proof.
  unfold table_force_calculate, force_calculate. simpl.
  destruct (segment_model m) as [segs|] eqn:E; [|discriminate].
  intros H. injection H as <- <- <-. split; [reflexivity|].
  intros Hclean. unfold table_selective_calculate, selective_calculate. simpl.
  rewrite Hclean, E. simpl. rewrite Hclean. rewrite filter_none.
  - eexists. reflexivity.
  - intros x Hx. apply needs_calculation_match with x; [exact Hx|].
    apply compare_model_refl.
Qed.

Lemma forced_round_then_skip_witness :
  exists p1 d1,
    table_force_calculate new_model_processor (small_grid true false)
    = Some (p1, d1, small_grid true false)
    /\ segment_model (small_grid true false) = Some d1.
Proof.
  assert (E : exists p1 d1,
             table_force_calculate new_model_processor (small_grid true false)
             = Some (p1, d1, small_grid true false)).
  { do 2 eexists. reflexivity. }
  destruct E as (p1 & d1 & E). exists p1, d1. split; [exact E|].
  exact (proj1 (@forced_round_then_skip _ _ _ _ _ E)).
Defined.

(* ================================================================== *)
(** * The set differences of [Model.py] *)
(* ================================================================== *)

Section SetDifference.
Context {A : Type} `{Entity A}.

Lemma existsb_key_in (x : A) (l : list A) :
  existsb (entity_eqb x) l = true <-> key_in x l.
Proof.
  unfold key_in. rewrite existsb_exists, in_map_iff. split.
  - intros (y & Hy & E). apply entity_eqb_key in E. exists y. auto.
  - intros (y & E & Hy). exists y. split; [exact Hy|].
    apply entity_eqb_key. auto.
Qed.

Lemma key_in_dec (x : A) (l : list A) : key_in x l \/ ~ key_in x l.
Proof.
  destruct (existsb (entity_eqb x) l) eqn:E.
  - left. apply existsb_key_in. exact E.
  - right. intros K. apply existsb_key_in in K. congruence.
Qed.

Lemma python_set_In (y : A) (l : list A) : In y (python_set l) -> In y l.
Proof.
  induction l as [|x tl IH]; simpl; [auto|].
  intros [->|Hy]; [auto|]. apply filter_In in Hy as [Hy _]. auto.
Qed.

Lemma python_set_key (x : A) (l : list A) :
  In x l -> exists y, In y (python_set l) /\ key y = key x.
Proof.
  induction l as [|a tl IH]; simpl; [contradiction|].
  intros [->|Hx]; [exists x; auto|].
  destruct (IH Hx) as (y & Hy & Hk).
  destruct (entity_eqb y a) eqn:E.
  - exists a. split; [auto|]. apply entity_eqb_key in E. congruence.
  - exists y. split; [|exact Hk]. right. apply filter_In. split; [exact Hy|].
    rewrite E. reflexivity.
Qed.

Lemma python_set_key_in (x : A) (l : list A) :
  key_in x (python_set l) <-> key_in x l.
Proof.
  unfold key_in. rewrite !in_map_iff. split.
  - intros (y & E & Hy). exists y. split; [exact E | apply python_set_In, Hy].
  - intros (y & E & Hy). destruct (python_set_key y l Hy) as (z & Hz & Hk).
    exists z. split; [congruence | exact Hz].
Qed.

Lemma set_difference_In (x : A) (l1 l2 : list A) :
  In x (set_difference l1 l2) -> In x l1 /\ ~ key_in x l2.
Proof.
  unfold set_difference. intros Hx. apply filter_In in Hx as [Hx Hn].
  split; [apply python_set_In, Hx|].
  intros K. apply python_set_key_in, existsb_key_in in K.
  rewrite K in Hn. discriminate.
Qed.

Lemma set_difference_key (x : A) (l1 l2 : list A) :
  In x l1 -> ~ key_in x l2 ->
  exists y, In y (set_difference l1 l2) /\ key y = key x.
Proof.
  intros Hx Hn. destruct (python_set_key x l1 Hx) as (y & Hy & Hk).
  exists y. split; [|exact Hk]. unfold set_difference. apply filter_In.
  split; [exact Hy|]. apply negb_true_iff.
  destruct (existsb (entity_eqb y) (python_set l2)) eqn:E; [|reflexivity].
  exfalso. apply Hn. apply existsb_key_in in E.
  apply (proj1 (python_set_key_in y l2)) in E.
  unfold key_in in *. rewrite <- Hk. exact E.
Qed.

(** X15: what [get_added_*] returns are elements of the first list whose
    key is not in the second, one for every such key; [get_removed_*] is
    the same with the two lists exchanged. *)
Theorem added_and_removed_by_key (list_1 list_2 : list A) :
  (forall x, In x (get_added list_1 list_2) -> In x list_1 /\ ~ key_in x list_2)
  /\ (forall x, In x list_1 -> ~ key_in x list_2 ->
                exists y, In y (get_added list_1 list_2) /\ key y = key x)
  /\ (forall x, In x (get_removed list_1 list_2) ->
                In x list_2 /\ ~ key_in x list_1)
  /\ (forall x, In x list_2 -> ~ key_in x list_1 ->
                exists y, In y (get_removed list_1 list_2) /\ key y = key x).
Proof.
  unfold get_added, get_removed.
  split; [|split; [|split]].
  - intros x Hx. apply set_difference_In, Hx.
  - intros x. apply set_difference_key.
  - intros x Hx. apply set_difference_In, Hx.
  - intros x. apply set_difference_key.
Qed.

Lemma set_difference_nil (l1 l2 : list A) :
  set_difference l1 l2 = [] <-> forall x, In x l1 -> key_in x l2.
Proof.
  split.
  - intros E x Hx. destruct (key_in_dec x l2) as [K|K]; [exact K|].
    destruct (set_difference_key x l1 l2 Hx K) as (y & Hy & _).
    rewrite E in Hy. contradiction.
  - intros Hall. destruct (set_difference l1 l2) as [|y tl] eqn:E; [reflexivity|].
    assert (Hy : In y (set_difference l1 l2)) by (rewrite E; left; reflexivity).
    apply set_difference_In in Hy as [Hy Hn]. exfalso. apply Hn, Hall, Hy.
Qed.

(** X16: nothing is added and nothing is removed exactly when the two
    lists hold the same set of keys. *)
Theorem no_difference_iff_same_keys (list_1 list_2 : list A) :
  get_added list_1 list_2 = [] /\ get_removed list_1 list_2 = []
  <-> same_entity_set list_1 list_2.
Proof.
  unfold get_added, get_removed, same_entity_set.
  rewrite !set_difference_nil. unfold key_in. split.
  - intros [H1 H2] k. split; intros Hk; apply in_map_iff in Hk as (x & <- & Hx); auto.
  - intros Hsame. split; intros x Hx; apply Hsame, in_map, Hx.
Qed.

(** X17: against a list that carries no flag, every flagged entity counts
    as added; and its unflagged predecessor of the same name counts as
    removed when the new list holds that name only flagged. *)
Theorem changed_entity_is_replaced (list_1 list_2 : list A) (x old : A) :
  (forall y, In y list_2 -> echanged y = false) ->
  In x list_1 -> echanged x = true ->
  In old list_2 ->
  (forall z, In z list_1 -> ename z = ename old -> echanged z = true) ->
  (exists y, In y (get_added list_1 list_2) /\ key y = key x)
  /\ (exists y, In y (get_removed list_1 list_2) /\ key y = key old).
Proof.
  intros Hfree Hx Hc Hold Hnew. unfold get_added, get_removed. split.
  - apply set_difference_key; [exact Hx|].
    intros K. unfold key_in in K. apply in_map_iff in K as (y & Ek & Hy).
    unfold key in Ek. specialize (Hfree y Hy). congruence.
  - apply set_difference_key; [exact Hold|].
    intros K. unfold key_in in K. apply in_map_iff in K as (z & Ek & Hz).
    unfold key in Ek. injection Ek as En Ec.
    specialize (Hnew z Hz En). specialize (Hfree old Hold). congruence.
Qed.
End SetDifference.

Lemma changed_entity_is_replaced_witness :
  (exists y, In y (get_added [generator "gen_0" "bus_0" true true]
                     [generator "gen_0" "bus_0" true false])
             /\ key y = key (generator "gen_0" "bus_0" true true))
  /\ (exists y, In y (get_removed [generator "gen_0" "bus_0" true true]
                        [generator "gen_0" "bus_0" true false])
                /\ key y = key (generator "gen_0" "bus_0" true false)).
Proof.
  apply (@changed_entity_is_replaced Generator _
           [generator "gen_0" "bus_0" true true]
           [generator "gen_0" "bus_0" true false]).
  - intros y [<-|[]]. reflexivity.
  - simpl. auto.
  - reflexivity.
  - simpl. auto.
  - intros z [<-|[]] _. reflexivity.
Defined.

(* ================================================================== *)
(** * More on the worker pool *)
(* ================================================================== *)

(** ** What a pass of a slot leaves alone *)

Lemma keeps_ret {A : Type} (a : A) : keeps_setup (ret a).
Proof. intros s. simpl. auto. Qed.

Lemma keeps_bind {A B : Type} (m : W A) (k : A -> W B) :
  keeps_setup m -> (forall a, keeps_setup (k a)) -> keeps_setup (bind m k).
Proof.
  intros Hm Hk s. unfold bind. destruct (Hm s) as (M1 & M2 & M3 & M4).
  destruct (m s) as [[a|] s1]; simpl in *; [|auto].
  destruct (Hk a s1) as (K1 & K2 & K3 & K4).
  repeat split; congruence.
Qed.

Lemma keeps_try_except {A : Type} (m h : W A) :
  keeps_setup m -> keeps_setup h -> keeps_setup (try_except m h).
Proof.
  intros Hm Hh s. unfold try_except. destruct (Hm s) as (M1 & M2 & M3 & M4).
  destruct (m s) as [[a|] s1]; simpl in *; [auto|].
  destruct (Hh s1) as (K1 & K2 & K3 & K4).
  repeat split; congruence.
Qed.

Lemma keeps_plain {A : Type} (m : W A) :
  (forall s, calc_method (instance (snd (m s))) = calc_method (instance s)
             /\ thread (snd (m s)) = thread s) ->
  keeps_setup m.
Proof. intros Hm s. destruct (Hm s) as [E1 E2]. rewrite E2. auto. Qed.

Lemma keeps_log (e : Event) : keeps_setup (log e).
Proof. intros s. simpl. auto. Qed.

Lemma keeps_external {A : Type} (e : Event) (o : outcome A) :
  keeps_setup (external e o).
Proof. intros s. unfold external, bind, log. destruct o; simpl; auto. Qed.

Lemma keeps_set_status (st cond : string) : keeps_setup (set_status st cond).
Proof. intros s. simpl. auto. Qed.

Lemma keeps_set_calc_time (t : Z) : keeps_setup (set_calc_time t).
Proof. intros s. simpl. auto. Qed.

Lemma keeps_the_input_model : keeps_setup the_input_model.
Proof.
  intros s. unfold the_input_model, bind, get_instance.
  destruct (calc_input_model (instance s)); simpl; auto.
Qed.

Lemma keeps_load_instance : keeps_setup load_instance.
Proof. intros s. simpl. auto. Qed.

Lemma keeps_build_model (ext : Externals) : keeps_setup (build_model ext).
Proof.
  unfold build_model.
  apply keeps_bind; [apply keeps_external | intros _].
  apply keeps_bind; [apply keeps_the_input_model | intros _].
  intros s. simpl. auto.
Qed.

Lemma keeps_retrieve_benchmarks : keeps_setup retrieve_benchmarks.
Proof. intros s. simpl. auto. Qed.

Lemma keeps_signal_finished : keeps_setup signal_finished.
Proof. intros s. simpl. auto. Qed.

Ltac setup_steps :=
  repeat (first
    [ apply keeps_ret | apply keeps_log | apply keeps_external
    | apply keeps_set_status | apply keeps_set_calc_time
    | apply keeps_the_input_model
    | match goal with |- keeps_setup (if ?b then _ else _) => destruct b end
    | apply keeps_try_except
    | apply keeps_bind; [|intros ?] ]).

Lemma keeps_calculate (ext : Externals) : keeps_setup (calculate ext).
Proof.
  assert (K1 : keeps_setup (calculate_lopf ext))
    by (unfold calculate_lopf; setup_steps).
  assert (K2 : keeps_setup (calculate_lpf ext))
    by (unfold calculate_lpf; setup_steps).
  assert (K3 : keeps_setup (calculate_pf ext))
    by (unfold calculate_pf; setup_steps).
  assert (K4 : keeps_setup (calculate_optimize ext))
    by (unfold calculate_optimize; setup_steps).
  intros s. unfold calculate, bind, get_instance.
  destruct (calc_method (instance s)) eqn:E;
    [destruct (K1 s) as (A1 & A2 & A3 & A4)
    |destruct (K2 s) as (A1 & A2 & A3 & A4)
    |destruct (K3 s) as (A1 & A2 & A3 & A4)
    |destruct (K4 s) as (A1 & A2 & A3 & A4)];
    rewrite E in A1; auto.
Qed.

Lemma keeps_worker_body (ext : Externals) : keeps_setup (worker_body ext).
Proof.
  unfold worker_body, worker_round.
  apply keeps_bind; [|intros _; apply keeps_external].
  apply keeps_bind; [apply keeps_load_instance | intros _].
  apply keeps_bind; [apply keeps_build_model | intros _].
  apply keeps_bind; [apply keeps_calculate | intros _].
  apply keeps_bind; [apply keeps_retrieve_benchmarks | intros _].
  apply keeps_signal_finished.
Qed.

Lemma run_slot_keeps (ext : Externals) (s : Slot) :
  calc_method (instance (run_slot ext s)) = calc_method (instance s)
  /\ td_snapshots (thread (run_slot ext s)) = td_snapshots (thread s)
  /\ td_model (thread (run_slot ext s)) = td_model (thread s)
  /\ model_id (thread (run_slot ext s)) = model_id (thread s).
Proof.
  unfold run_slot. destruct (alive s && wakeup_event (thread s)); [|auto].
  set (s0 := {| thread := set_wakeup false (thread s); instance := instance s;
                alive := alive s; events := events s |}).
  pose proof (keeps_worker_body ext s0) as K.
  destruct (worker_body ext s0) as [[u|] s1]; simpl in *; exact K.
Qed.

(** ** The pool through a round *)

Lemma start_workers_length (models : list Model) (slots : list Slot) :
  List.length (start_workers models slots) = List.length slots.
Proof.
  revert slots. induction models as [|m ms IH]; intros [|s ss]; simpl; auto.
Qed.

Lemma run_workers_length (exts : nat -> Externals) (i : nat) (slots : list Slot) :
  List.length (run_workers exts i slots) = List.length slots.
Proof. revert i. induction slots as [|s ss IH]; intros i; simpl; auto. Qed.

Lemma wait_workers_length (n : nat) (l l' : list Slot) :
  wait_workers n l = Some l' -> List.length l' = List.length l.
Proof.
  revert l l'. induction n as [|n IH]; intros l l' E; simpl in E.
  - injection E as <-. reflexivity.
  - destruct l as [|s ss]; [discriminate|].
    destruct (finished_event (thread s)); [|discriminate].
    destruct (wait_workers n ss) as [ss'|] eqn:E'; [|discriminate].
    injection E as <-. simpl. f_equal. apply IH. exact E'.
Qed.

Lemma spawn_workers_length (mgr : CalculatorThreadManager) (models : list Model) :
  List.length (spawn_workers mgr models)
  = Nat.max (List.length (worker_threads mgr)) (List.length models).
Proof.
  unfold spawn_workers. rewrite length_app, length_map, length_seq.
  lia.
Qed.

(** X18: the pool only grows: after a round it has as many slots as the
    larger of its size before and the number of models, and the method and
    the snapshots of the manager are as before. *)
Theorem pool_only_grows (exts : nat -> Externals) (models : list Model)
    (mgr mgr' : CalculatorThreadManager) :
  manager_calculate exts models mgr = Some mgr' ->
  List.length (worker_threads mgr')
  = Nat.max (List.length (worker_threads mgr)) (List.length models)
  /\ calculation_method mgr' = calculation_method mgr
  /\ snapshots mgr' = snapshots mgr.
Proof.
  unfold manager_calculate. intros E.
  destruct (wait_workers _ _) as [slots'|] eqn:W; [|discriminate].
  injection E as <-. simpl. split; [|auto].
  rewrite (wait_workers_length _ _ W), run_workers_length, start_workers_length.
  apply spawn_workers_length.
Qed.

Lemma pool_only_grows_witness :
  exists mgr',
    manager_calculate (fun _ => quiet_externals)
      (repeat (small_grid true false) 7) (new_manager Pf) = Some mgr'
    /\ List.length (worker_threads mgr') = 7%nat.
Proof.
  assert (E : exists mgr',
             manager_calculate (fun _ => quiet_externals)
               (repeat (small_grid true false) 7) (new_manager Pf) = Some mgr').
  { eexists. vm_compute. reflexivity. }
  destruct E as (mgr' & E). exists mgr'. split; [exact E|].
  exact (proj1 (@pool_only_grows _ _ _ _ E)).
Defined.

Lemma start_workers_nth (models : list Model) (slots : list Slot)
    (i : nat) (model : Model) (s : Slot) :
  nth_error models i = Some model -> nth_error slots i = Some s ->
  nth_error (start_workers models slots) i
  = Some {| thread := set_wakeup true (set_td_model model (thread s));
            instance := instance s; alive := alive s; events := events s |}.
Proof.
  revert slots i. induction models as [|m ms IH]; intros [|s0 ss] [|i] Hm Hs;
    simpl in *; try discriminate.
  - injection Hm as ->. injection Hs as ->. reflexivity.
  - apply IH; assumption.
Qed.

Lemma run_workers_nth (exts : nat -> Externals) (k : nat) (slots : list Slot)
    (i : nat) (s : Slot) :
  nth_error slots i = Some s ->
  nth_error (run_workers exts k slots) i = Some (run_slot (exts (k + i)%nat) s).
Proof.
  revert k i. induction slots as [|s0 ss IH]; intros k [|i] Hs; simpl in *;
    try discriminate.
  - injection Hs as ->. rewrite Nat.add_0_r. reflexivity.
  - rewrite (IH (S k) i Hs). do 3 f_equal. lia.
Qed.

Lemma wait_workers_nth (n : nat) (l l' : list Slot) (i : nat) (s : Slot) :
  wait_workers n l = Some l' -> nth_error l i = Some s ->
  exists s', nth_error l' i = Some s'
             /\ instance s' = instance s /\ alive s' = alive s
             /\ events s' = events s
             /\ (thread s' = thread s \/ thread s' = set_finished false (thread s)).
Proof.
  revert l l' i. induction n as [|n IH]; intros l l' i E Hs; simpl in E.
  - injection E as <-. exists s. repeat split; auto.
  - destruct l as [|s0 ss]; [discriminate|].
    destruct (finished_event (thread s0)); [|discriminate].
    destruct (wait_workers n ss) as [ss'|] eqn:E'; [|discriminate].
    injection E as <-. destruct i as [|i]; simpl in *.
    + injection Hs as ->. eexists. split; [reflexivity|]. simpl.
      repeat split; auto.
    + apply (IH ss ss' i E' Hs).
Qed.

Lemma spawn_workers_nth (mgr : CalculatorThreadManager) (models : list Model)
    (i : nat) :
  (i < List.length models)%nat ->
  exists s, nth_error (spawn_workers mgr models) i = Some s.
Proof.
  intros Hi. destruct (nth_error (spawn_workers mgr models) i) eqn:E; [eauto|].
  apply nth_error_None in E. rewrite spawn_workers_length in E. lia.
Qed.

(** X19: in a round that returns, slot [i] holds the [i]-th model handed
    to [calculate]. *)
Theorem slot_i_gets_model_i (exts : nat -> Externals) (models : list Model)
    (mgr mgr' : CalculatorThreadManager) (i : nat) (model : Model) :
  manager_calculate exts models mgr = Some mgr' ->
  nth_error models i = Some model ->
  exists s, nth_error (worker_threads mgr') i = Some s
            /\ td_model (thread s) = Some model.
Proof.
  unfold manager_calculate. intros E Hm.
  destruct (wait_workers _ _) as [slots'|] eqn:W; [|discriminate].
  injection E as <-. simpl.
  assert (Hi : (i < List.length models)%nat) by (apply nth_error_Some; congruence).
  destruct (spawn_workers_nth mgr models Hi) as (s0 & Hs0).
  pose proof (start_workers_nth _ _ _ Hm Hs0) as Hs1.
  pose proof (run_workers_nth exts 0 _ _ Hs1) as Hs2.
  destruct (wait_workers_nth _ _ _ W Hs2) as (s' & Hs' & _ & _ & _ & Ht).
  exists s'. split; [exact Hs'|].
  destruct (run_slot_keeps (exts (0 + i)%nat)
              {| thread := set_wakeup true (set_td_model model (thread s0));
                 instance := instance s0; alive := alive s0; events := events s0 |})
    as (_ & _ & Hmodel & _).
  assert (Hset : forall t, td_model (set_finished false t) = td_model t)
    by reflexivity.
  destruct Ht as [Ht|Ht]; rewrite Ht, ?Hset, Hmodel; reflexivity.
Qed.

Lemma slot_i_gets_model_i_witness :
  exists mgr' s,
    manager_calculate (fun _ => quiet_externals)
      [small_grid true false; storage_only_segment] (new_manager Pf) = Some mgr'
    /\ nth_error (worker_threads mgr') 1 = Some s
    /\ td_model (thread s) = Some storage_only_segment.
Proof.
  assert (E : exists mgr',
             manager_calculate (fun _ => quiet_externals)
               [small_grid true false; storage_only_segment] (new_manager Pf)
             = Some mgr').
  { eexists. vm_compute. reflexivity. }
  destruct E as (mgr' & E).
  destruct (@slot_i_gets_model_i _ _ _ _ 1 storage_only_segment E eq_refl)
    as (s & Hs & Hm).
  exists mgr', s. auto.
Defined.

Lemma wait_workers_blocked (n : nat) (l : list Slot) (i : nat) (s : Slot) :
  (i < n)%nat -> nth_error l i = Some s -> finished_event (thread s) = false ->
  wait_workers n l = None.
Proof.
  revert l i. induction n as [|n IH]; intros l i Hi Hs Hf; [lia|]. simpl.
  destruct l as [|s0 ss]; [reflexivity|].
  destruct i as [|i]; simpl in Hs.
  - injection Hs as ->. rewrite Hf. reflexivity.
  - destruct (finished_event (thread s0)); [|reflexivity].
    rewrite (IH ss i) by (assumption || lia). reflexivity.
Qed.

(** X20: a slot whose thread has ended is never replaced: a round that
    hands it a model does not return. *)
Theorem ended_slot_blocks_the_round (exts : nat -> Externals) (models : list Model)
    (mgr : CalculatorThreadManager) (i : nat) (s : Slot) :
  nth_error (worker_threads mgr) i = Some s ->
  alive s = false -> finished_event (thread s) = false ->
  (i < List.length models)%nat ->
  manager_calculate exts models mgr = None.
Proof.
  intros Hs Ha Hf Hi. unfold manager_calculate.
  destruct (nth_error models i) as [model|] eqn:Hm;
    [|apply nth_error_None in Hm; lia].
  assert (Hs0 : nth_error (spawn_workers mgr models) i = Some s).
  { unfold spawn_workers. rewrite nth_error_app1; [exact Hs|].
    apply nth_error_Some. congruence. }
  pose proof (start_workers_nth _ _ _ Hm Hs0) as Hs1.
  pose proof (run_workers_nth exts 0 _ _ Hs1) as Hs2.
  rewrite (wait_workers_blocked _ Hi Hs2); [reflexivity|].
  unfold run_slot. simpl. rewrite Ha. simpl. exact Hf.
Qed.

Lemma ended_slot_blocks_the_round_witness :
  exists mgr s,
    manager_calculate (fun _ => with_export Raises quiet_externals)
      [small_grid true false] (new_manager Lpf) = Some mgr
    /\ nth_error (worker_threads mgr) 0 = Some s
    /\ alive s = false
    /\ manager_calculate (fun _ => quiet_externals) [small_grid true false] mgr
       = None.
Proof.
  assert (E : exists mgr s,
             manager_calculate (fun _ => with_export Raises quiet_externals)
               [small_grid true false] (new_manager Lpf) = Some mgr
             /\ nth_error (worker_threads mgr) 0 = Some s
             /\ alive s = false /\ finished_event (thread s) = false).
  { do 2 eexists. vm_compute. repeat split. }
  destruct E as (mgr & s & E & Hs & Ha & Hf).
  exists mgr, s. repeat split; try assumption.
  apply (@ended_slot_blocks_the_round (fun _ => quiet_externals)
           [small_grid true false] mgr 0 s Hs Ha Hf).
  simpl. lia.
Defined.

(** ** Method and snapshots of the slots *)

(** The manager before its first round is the one [__init__] sets up for
    "optimize", with the method set afterwards. *)
Lemma new_manager_init_then_set (method : Method) :
  new_manager method
  = manager_set_calculation_method method (new_manager Optimize).
Proof. destruct method; reflexivity. Qed.

Lemma pool_consistent_Forall (mgr : CalculatorThreadManager) :
  pool_consistent mgr
  <-> Forall (fun s => calc_method (instance s) = calculation_method mgr
                       /\ td_snapshots (thread s) = snapshots mgr)
        (worker_threads mgr).
Proof. unfold pool_consistent. rewrite Forall_forall. tauto. Qed.

Lemma start_workers_Forall (P : Slot -> Prop) (models : list Model)
    (slots : list Slot) :
  (forall s m, P s ->
     P {| thread := set_wakeup true (set_td_model m (thread s));
          instance := instance s; alive := alive s; events := events s |}) ->
  Forall P slots -> Forall P (start_workers models slots).
Proof.
  intros HP. revert slots. induction models as [|m ms IH]; intros [|s ss] H;
    simpl; auto.
  inversion H; subst. constructor; auto.
Qed.

Lemma run_workers_Forall (P : Slot -> Prop) (exts : nat -> Externals) (k : nat)
    (slots : list Slot) :
  (forall e s, P s -> P (run_slot e s)) ->
  Forall P slots -> Forall P (run_workers exts k slots).
Proof.
  intros HP. revert k. induction slots as [|s ss IH]; intros k H; simpl; auto.
  inversion H; subst. constructor; auto.
Qed.

Lemma wait_workers_Forall (P : Slot -> Prop) (n : nat) (l l' : list Slot) :
  (forall s, P s ->
     P {| thread := set_finished false (thread s); instance := instance s;
          alive := alive s; events := events s |}) ->
  wait_workers n l = Some l' -> Forall P l -> Forall P l'.
Proof.
  intros HP. revert l l'. induction n as [|n IH]; intros l l' E H; simpl in E.
  - injection E as <-. exact H.
  - destruct l as [|s ss]; [discriminate|].
    destruct (finished_event (thread s)); [|discriminate].
    destruct (wait_workers n ss) as [ss'|] eqn:E'; [|discriminate].
    injection E as <-. inversion H; subst. constructor; [auto|].
    apply (IH ss ss' E'). assumption.
Qed.

(** X21: every slot computes with the method of the manager and holds its
    snapshots: so it is for a new manager, and setting the method, setting
    the snapshots and running a round keep it so. *)
Theorem pool_stays_consistent :
  (forall method, pool_consistent (new_manager method))
  /\ (forall method mgr, pool_consistent mgr ->
        pool_consistent (manager_set_calculation_method method mgr))
  /\ (forall snaps mgr, pool_consistent mgr ->
        pool_consistent (manager_set_snapshots snaps mgr))
  /\ (forall exts models mgr mgr', pool_consistent mgr ->
        manager_calculate exts models mgr = Some mgr' -> pool_consistent mgr').
Proof.
  split; [|split; [|split]].
  - intros method s Hs. unfold new_manager in Hs. simpl in Hs.
    repeat destruct Hs as [<-|Hs]; try contradiction; simpl; auto.
  - intros method mgr Hc s Hs. unfold manager_set_calculation_method in *.
    simpl in *. destruct (method_eqb (calculation_method mgr) method) eqn:E; simpl in Hs.
    + destruct (Hc s Hs) as [H1 H2]. split; [|exact H2].
      rewrite H1. destruct (calculation_method mgr); destruct method;
        simpl in E; congruence.
    + apply in_map_iff in Hs as (s0 & <- & Hs0). simpl.
      split; [reflexivity | apply (Hc s0 Hs0)].
  - intros snaps mgr Hc s Hs. unfold manager_set_snapshots in *. simpl in *.
    apply in_map_iff in Hs as (s0 & <- & Hs0). simpl.
    split; [apply (Hc s0 Hs0) | reflexivity].
  - intros exts models mgr mgr' Hc E. unfold manager_calculate in E.
    destruct (wait_workers _ _) as [slots'|] eqn:W; [|discriminate].
    injection E as <-. apply pool_consistent_Forall. simpl.
    eapply wait_workers_Forall; [|exact W|].
    + intros s H. exact H.
    + apply run_workers_Forall.
      * intros e s [H1 H2].
        destruct (run_slot_keeps e s) as (K1 & K2 & _). split; congruence.
      * apply start_workers_Forall; [intros s m H; exact H|].
        unfold spawn_workers. apply Forall_app. split.
        -- apply pool_consistent_Forall. exact Hc.
        -- apply Forall_forall. intros s Hs.
           apply in_map_iff in Hs as (j & <- & _). simpl. auto.
Qed.

(** ** What a slot reports *)

(** Deciding [raises_before_signal] once every outcome is known. *)
Ltac holds_raise :=
  solve
    [ left; reflexivity
    | right; left; repeat split;
        solve [reflexivity | left; discriminate | right; discriminate]
    | right; right; left; split; reflexivity
    | right; right; right; repeat split;
        solve [reflexivity | discriminate | left; discriminate
              | right; discriminate] ].

Ltac settle_signal :=
  let Hfin := fresh "Hfin" in
  let Hr := fresh "Hr" in
  let Hn := fresh "Hn" in
  split;
  [ intros Hfin Hr; first [discriminate Hfin | solve [intuition congruence]]
  | intros Hn; first [reflexivity | exfalso; apply Hn; holds_raise] ].

(** X22: a slot that was handed a segment signals completion exactly when
    no call standing outside every [try] raises before the signal: the
    build of the network, the solver under [lopf] for a segment with a
    generator or a storage unit, the [calculate] of the optimize class, and
    the retrieval of the results when the calculator gets that far. *)
Theorem slot_signals_completion (method : Method) (ext : Externals) (m : Model) :
  finished_event (thread (run_slot ext (started_slot method m))) = true
  <-> ~ raises_before_signal method ext m.
Proof.
  destruct m as [bs ls ts gs lds sus].
  destruct ext as [lopf lpf pf ex tb tc bd rt op].
  unfold raises_before_signal, retrieval_reached, has_generation. simpl.
  destruct bd as [[]|].
  2: { split; [intros H; destruct method; cbv in H; discriminate H
              | intros H; exfalso; apply H; left; reflexivity]. }
  destruct method.
  - destruct gs as [|g gs]; destruct sus as [|u sus];
      destruct lopf as [[st cond]|]; destruct ex as [[]|]; destruct rt as [[]|];
      cbv -[String.eqb not];
      try (destruct (String.eqb_spec st "ok") as [Hst|Hst];
           destruct (String.eqb_spec cond "optimal") as [Hc|Hc]; try subst st;
           try subst cond);
      cbv -[not]; settle_signal.
  - destruct gs as [|g gs]; destruct lpf as [[]|]; destruct ex as [[]|];
      destruct rt as [[]|]; cbv -[not]; settle_signal.
  - destruct gs as [|g gs]; destruct sus as [|u sus]; destruct lpf as [[]|];
      destruct pf as [[]|]; destruct ex as [[]|]; destruct rt as [[]|];
      cbv -[not]; settle_signal.
  - destruct op as [[st cond]|]; destruct ex as [[]|]; cbv -[not]; settle_signal.
Qed.

(** X23: under [lopf], when the build of the network and the solver
    return, and so does the retrieval of the results in case the solver
    gave "ok" and "optimal", the slot reports the status and condition the
    solver gave, signals completion, and fetches results exactly when these
    are "ok" and "optimal". *)
Theorem lopf_reports_solver_status (ext : Externals) (m : Model)
    (st cond : string) :
  has_generation Lopf m -> ext_build ext = Returns tt ->
  ext_lopf ext = Returns (st, cond) ->
  (st = "ok" -> cond = "optimal" -> ext_retrieve ext = Returns tt) ->
  let s := run_slot ext (started_slot Lopf m) in
  status (thread s) = st /\ status_extended (thread s) = cond
  /\ finished_event (thread s) = true
  /\ (In EvRetrieveResults (events s) <-> st = "ok" /\ cond = "optimal").
Proof.
  intros Hgen Hbuild Hsolver Hret.
  destruct m as [bs ls ts gs lds sus].
  destruct ext as [lopf lpf pf ex tb tc bd rt op].
  simpl in Hsolver, Hbuild, Hret. subst lopf bd.
  assert (Hcase : (exists g gs', gs = g :: gs')
                  \/ (gs = [] /\ exists u sus', sus = u :: sus')).
  { destruct gs as [|g gs']; [right | left; eauto].
    split; [reflexivity|]. destruct sus as [|u sus']; [|eauto].
    destruct Hgen as [Hg|Hs]; simpl in *; congruence. }
  destruct Hcase as [(g & gs' & ->)|(-> & u & sus' & ->)];
    destruct ex as [[]|];
    cbv -[String.eqb In];
    destruct (String.eqb_spec st "ok") as [Hst|Hst];
    destruct (String.eqb_spec cond "optimal") as [Hc|Hc];
    try rewrite (Hret Hst Hc);
    cbv -[In];
    (split; [reflexivity|]); (split; [reflexivity|]); (split; [reflexivity|]);
    (split; [intros Hin | intros [H1 H2]]);
    try (split; assumption); try contradiction;
    try (simpl; tauto);
    try (simpl in Hin; repeat destruct Hin as [Hin|Hin];
         discriminate || contradiction).
Qed.

Lemma lopf_reports_solver_status_witness :
  let s := run_slot quiet_externals (started_slot Lopf (small_grid true false)) in
  status (thread s) = "ok" /\ status_extended (thread s) = "optimal"
  /\ finished_event (thread s) = true
  /\ (In EvRetrieveResults (events s) <-> "ok" = "ok" /\ "optimal" = "optimal").
Proof.
  apply (@lopf_reports_solver_status quiet_externals (small_grid true false)
           "ok" "optimal").
  - left. discriminate.
  - reflexivity.
  - reflexivity.
  - reflexivity.
Defined.

(** X24: under [lpf] and [pf], when the segment has what the calculator
    asks for and the build of the network, the solver and the retrieval of
    the results return, the slot reports "ok"/"succes", fetches the results
    and signals completion. *)
Theorem lpf_pf_success (method : Method) (ext : Externals) (m : Model) :
  method = Lpf \/ method = Pf -> has_generation method m ->
  ext_build ext = Returns tt ->
  ext_lpf ext = Returns tt -> (method = Pf -> ext_pf ext = Returns tt) ->
  ext_retrieve ext = Returns tt ->
  let s := run_slot ext (started_slot method m) in
  status (thread s) = "ok" /\ status_extended (thread s) = "succes"
  /\ finished_event (thread s) = true
  /\ In EvRetrieveResults (events s).
Proof.
  intros Hm Hgen Hbuild Hlpf Hpf Hret.
  destruct m as [bs ls ts gs lds sus].
  destruct ext as [lopf lpf pf ex tb tc bd rt op].
  simpl in Hlpf, Hpf, Hbuild, Hret. subst lpf bd rt.
  destruct Hm as [-> | ->].
  - simpl in Hgen. destruct gs as [|g gs']; [congruence|].
    destruct ex as [[]|]; cbv -[In]; repeat split; simpl; tauto.
  - rewrite (Hpf eq_refl).
    assert (Hcase : (exists g gs', gs = g :: gs')
                    \/ (gs = [] /\ exists u sus', sus = u :: sus')).
    { destruct gs as [|g gs']; [right | left; eauto].
      split; [reflexivity|]. destruct sus as [|u sus']; [|eauto].
      destruct Hgen as [Hg|Hs]; simpl in *; congruence. }
    destruct Hcase as [(g & gs' & ->)|(-> & u & sus' & ->)];
      destruct ex as [[]|]; cbv -[In]; repeat split; simpl; tauto.
Qed.

Lemma lpf_pf_success_witness :
  let s := run_slot quiet_externals (started_slot Pf storage_only_segment) in
  status (thread s) = "ok" /\ status_extended (thread s) = "succes"
  /\ finished_event (thread s) = true
  /\ In EvRetrieveResults (events s).
Proof.
  apply (@lpf_pf_success Pf quiet_externals storage_only_segment).
  - right. reflexivity.
  - right. discriminate.
  - reflexivity.
  - reflexivity.
  - reflexivity.
  - reflexivity.
Defined.

(* ================================================================== *)
(** * Clearing the flags and the partition *)
(* ================================================================== *)

Lemma visit_connection_ends (k : Z) (nm : string) (st : list BusIndex * bool)
    (c c' : Connection) :
  conn_bus0 c = conn_bus0 c' -> conn_bus1 c = conn_bus1 c' ->
  visit_connection k nm st c = visit_connection k nm st c'.
Proof. intros E0 E1. unfold visit_connection. rewrite E0, E1. reflexivity. Qed.

Lemma visit_fold_ends (k : Z) (nm : string) (cs cs' : list Connection)
    (st : list BusIndex * bool) :
  Forall2 (fun c c' => conn_bus0 c = conn_bus0 c' /\ conn_bus1 c = conn_bus1 c')
    cs cs' ->
  fold_left (visit_connection k nm) cs st
  = fold_left (visit_connection k nm) cs' st.
Proof.
  intros F. revert st. induction F as [|c c' cs cs' [E0 E1] _ IH]; intros st; simpl.
  - reflexivity.
  - rewrite (visit_connection_ends k nm st c c' E0 E1). apply IH.
Qed.

Lemma sweep_ends (k : Z) (cs cs' : list Connection) (l : list BusIndex) :
  Forall2 (fun c c' => conn_bus0 c = conn_bus0 c' /\ conn_bus1 c = conn_bus1 c')
    cs cs' ->
  sweep cs k l = sweep cs' k l.
Proof.
  intros F. unfold sweep. generalize (l, false). generalize (seq 0 (List.length l)).
  intros ps. induction ps as [|p ps IH]; intros st; simpl; [reflexivity|].
  assert (E : sweep_step cs k st p = sweep_step cs' k st p).
  { unfold sweep_step. destruct (nth_error (fst st) p); [|reflexivity].
    destruct (segment b =? k); [|reflexivity]. apply visit_fold_ends, F. }
  rewrite E. apply IH.
Qed.

Lemma flood_fill_ends (fuel : nat) (k : Z) (cs cs' : list Connection)
    (l : list BusIndex) :
  Forall2 (fun c c' => conn_bus0 c = conn_bus0 c' /\ conn_bus1 c = conn_bus1 c')
    cs cs' ->
  flood_fill fuel cs k l = flood_fill fuel cs' k l.
Proof.
  intros F. revert l. induction fuel as [|fuel IH]; intros l; simpl; [reflexivity|].
  rewrite (sweep_ends k l F). destruct (sweep cs' k l) as [l' [|]]; [apply IH | reflexivity].
Qed.

Lemma segment_buses_ends (fuel : nat) (k : Z) (cs cs' : list Connection)
    (l : list BusIndex) :
  Forall2 (fun c c' => conn_bus0 c = conn_bus0 c' /\ conn_bus1 c = conn_bus1 c')
    cs cs' ->
  segment_buses fuel cs k l = segment_buses fuel cs' k l.
Proof.
  intros F. revert k l. induction fuel as [|fuel IH]; intros k l; [reflexivity|].
  cbn [segment_buses]. cbv zeta. rewrite (flood_fill_ends _ _ _ F).
  destruct (flood_fill _ cs' _ _); [|reflexivity].
  destruct (all_allocated _); [reflexivity | apply IH].
Qed.

Lemma filter_map_swap {A B : Type} (p : B -> bool) (f : A -> B) (l : list A) :
  filter p (map f l) = map f (filter (fun x => p (f x)) l).
Proof.
  induction l as [|a tl IH]; simpl; [reflexivity|].
  destruct (p (f a)); simpl; rewrite IH; reflexivity.
Qed.

Lemma map_flat_map_swap {A B C : Type} (f : B -> C) (g : A -> list B) (l : list A) :
  map f (flat_map g l) = flat_map (fun x => map f (g x)) l.
Proof.
  induction l as [|a tl IH]; simpl; [reflexivity|].
  rewrite map_app, IH. reflexivity.
Qed.

Lemma init_from_reset (i : nat) (bl : list Bus) :
  init_from i (map (set_changed false) bl) = init_from i bl.
Proof.
  revert i. induction bl as [|b tl IH]; intros i; simpl; [reflexivity|].
  rewrite IH. destruct b. reflexivity.
Qed.

Lemma connection_list_reset (m : Model) :
  Forall2 (fun c c' => conn_bus0 c = conn_bus0 c' /\ conn_bus1 c = conn_bus1 c')
    (connection_list (reset_changed_components m)) (connection_list m).
Proof.
  unfold connection_list, reset_changed_components. simpl.
  rewrite !filter_map_swap, !map_map.
  assert (FL : forall l : list Line,
             Forall2 (fun c c' => conn_bus0 c = conn_bus0 c'
                                  /\ conn_bus1 c = conn_bus1 c')
               (map (fun x => ConnLine (set_changed false x)) l) (map ConnLine l)).
  { induction l as [|x tl IH]; simpl; [constructor|].
    constructor; [destruct x; auto | exact IH]. }
  assert (FT : forall l : list Transformer,
             Forall2 (fun c c' => conn_bus0 c = conn_bus0 c'
                                  /\ conn_bus1 c = conn_bus1 c')
               (map (fun x => ConnTransformer (set_changed false x)) l)
               (map ConnTransformer l)).
  { induction l as [|x tl IH]; simpl; [constructor|].
    constructor; [destruct x; auto | exact IH]. }
  assert (EL : filter (fun x : Line => eactive (set_changed false x)) (lines m)
               = filter eactive (lines m))
    by (apply filter_ext; intros []; reflexivity).
  assert (ET : filter (fun x : Transformer => eactive (set_changed false x))
                 (transformers m)
               = filter eactive (transformers m))
    by (apply filter_ext; intros []; reflexivity).
  rewrite EL, ET. apply Forall2_app; [apply FL | apply FT].
Qed.

Lemma segment_of_reset (m : Model) (bil : list BusIndex) (i : nat) :
  segment_of (reset_changed_components m) bil i
  = reset_changed_components (segment_of m bil i).
Proof.
  unfold segment_of, reset_changed_components, attached, attached_active,
    indexed_bus. simpl.
  rewrite !map_flat_map_swap.
  f_equal; apply flat_map_ext; intros bi.
  - rewrite nth_error_map. destruct (nth_error (buses m) (index bi)); reflexivity.
  - rewrite filter_map_swap. reflexivity.
  - rewrite filter_map_swap. reflexivity.
  - rewrite filter_map_swap. reflexivity.
  - rewrite filter_map_swap. reflexivity.
  - rewrite filter_map_swap. reflexivity.
Qed.

Lemma reset_flag_free (m : Model) : flag_free (reset_changed_components m).
Proof.
  unfold flag_free, reset_changed_components. simpl.
  repeat split; intros x Hx; apply in_map_iff in Hx as (y & <- & _);
    destruct y; reflexivity.
Qed.

Lemma segment_model_reset (m : Model) :
  segment_model (reset_changed_components m)
  = option_map (map reset_changed_components) (segment_model m).
Proof.
  unfold segment_model.
  assert (Ei : init_bus_index_list (buses (reset_changed_components m))
               = init_bus_index_list (buses m)).
  { unfold init_bus_index_list. simpl. apply init_from_reset. }
  rewrite Ei, (segment_buses_ends _ _ _ (connection_list_reset m)).
  destruct (segment_buses _ (connection_list m) _ _) as [[bil kf]|]; [|reflexivity].
  simpl. rewrite !compile_models_closed_form, map_map. f_equal.
  apply map_ext. intros i. apply segment_of_reset.
Qed.

(** X25: clearing the flags leaves the partition as it is: the segments of
    the cleared model are the segments of the model with their flags
    cleared; and no entity of the cleared model carries a flag. *)
Theorem reset_keeps_the_partition (m : Model) :
  segment_model (reset_changed_components m)
  = option_map (map reset_changed_components) (segment_model m)
  /\ flag_free (reset_changed_components m).
Proof. split; [apply segment_model_reset | apply reset_flag_free]. Qed.

Lemma flag_free_same_as_reset (s : Model) :
  flag_free s -> same_as_cached (reset_changed_components s) s = true.
Proof.
  intros (Fb & Fl & Ft & Fg & Fld & Fu).
  unfold same_as_cached. apply andb_true_iff. split.
  - apply compare_model_components_keys. unfold reset_changed_components. simpl.
    rewrite !map_map. repeat split; apply map_ext_in; intros x Hx;
      [specialize (Fg x Hx) | specialize (Fld x Hx)
      | specialize (Fu x Hx) | specialize (Ft x Hx)];
      destruct x as [[n b a c] ?]; unfold key, ename, echanged in *; simpl in *;
      congruence.
  - apply compare_model_structure_keys. unfold reset_changed_components. simpl.
    rewrite !map_map. split; apply map_ext_in; intros x Hx;
      [specialize (Fb x Hx) | specialize (Fl x Hx)];
      destruct x as [[n b a c] ?]; unfold key, ename, echanged in *; simpl in *;
      congruence.
Qed.

(** X26: of two selective rounds with no flag set in between, the second
    never hands over a segment that held no flagged entity at the first. *)
Theorem untouched_segment_is_skipped
    (p p1 p2 : ModelProcessor) (m m1 m2 : Model) (d1 d2 segs : list Model)
    (s : Model) :
  table_selective_calculate p m = Some (p1, d1, m1) ->
  table_selective_calculate p1 m1 = Some (p2, d2, m2) ->
  segment_model m = Some segs -> In s segs -> flag_free s ->
  ~ In (reset_changed_components s) d2.
Proof.
  intros E1 E2 Es Hs Hfree Hin.
  unfold table_selective_calculate, selective_calculate in E1. simpl in E1.
  rewrite Es in E1. injection E1 as <- _ <-.
  unfold table_selective_calculate, selective_calculate in E2. simpl in E2.
  rewrite (segment_model_reset m), Es in E2. simpl in E2.
  injection E2 as _ <- _.
  apply filter_In in Hin as [_ Hneed].
  rewrite (needs_calculation_match segs (reset_changed_components s) s Hs
             (flag_free_same_as_reset Hfree)) in Hneed.
  discriminate.
Qed.

Lemma untouched_segment_is_skipped_witness :
  exists p1 d1 m1 p2 d2 m2 s,
    table_selective_calculate new_model_processor (two_islands true)
    = Some (p1, d1, m1)
    /\ table_selective_calculate p1 m1 = Some (p2, d2, m2)
    /\ nth_error (segments_of (two_islands true)) 1 = Some s
    /\ List.length d2 = 1%nat
    /\ flag_free s
    /\ ~ In (reset_changed_components s) d2.
Proof.
  assert (E : exists p1 d1 m1 p2 d2 m2 s,
             table_selective_calculate new_model_processor (two_islands true)
             = Some (p1, d1, m1)
             /\ table_selective_calculate p1 m1 = Some (p2, d2, m2)
             /\ nth_error (segments_of (two_islands true)) 1 = Some s
             /\ List.length d2 = 1%nat).
  { do 7 eexists.
    split; [vm_compute; reflexivity|].
    split; [vm_compute; reflexivity|].
    split; vm_compute; reflexivity. }
  destruct E as (p1 & d1 & m1 & p2 & d2 & m2 & s & E1 & E2 & Es & El).
  exists p1, d1, m1, p2, d2, m2, s.
  split; [exact E1|]. split; [exact E2|]. split; [exact Es|].
  split; [exact El|].
  assert (F : flag_free s).
  { vm_compute in Es. injection Es as <-. unfold flag_free. simpl.
    repeat split; intros x Hx; repeat destruct Hx as [<-|Hx];
      try reflexivity; contradiction. }
  split; [exact F|].
  apply (@untouched_segment_is_skipped _ _ _ _ _ _ _ _
           (segments_of (two_islands true)) s E1 E2);
    [vm_compute; reflexivity | exact (nth_error_In _ _ Es) | exact F].
Defined.

(** X27: a model with no bus at all gives no segment, whatever else it
    holds. *)
Theorem no_bus_no_segment (m : Model) :
  buses m = [] -> segment_model m = Some [].
Proof. intros E. unfold segment_model. rewrite E. reflexivity. Qed.

Lemma no_bus_no_segment_witness :
  segment_model
    {| buses := []; lines := [line "line_0" "bus_0" "bus_1" true];
       transformers := []; generators := [generator "gen_0" "bus_0" true false];
       loads := []; storage_units := [] |}
  = Some [].
Proof. apply no_bus_no_segment. reflexivity. Defined.
